(** * modules2tuple: package-spec parsing, name resolution and output order

    A shallow embedding of [modules2tuple.go].  Go strings are byte
    sequences; they are modelled by [string] (a list of 8-bit [ascii]).
    The parts of the Go standard library the program calls ([strings],
    [regexp], [sort]) are modelled by their documented behaviour on the
    arguments the program passes. *)

From Stdlib Require Import String Ascii List Arith NArith Bool Lia.
From Stdlib Require Import Permutation Sorted.
Import ListNotations.
Local Open Scope list_scope.
Local Open Scope string_scope.
Local Open Scope nat_scope.

(** ** Bytes and character classes *)

Definition code (a : ascii) : nat := nat_of_ascii a.

Definition inRange (lo hi : nat) (a : ascii) : bool :=
  (lo <=? code a) && (code a <=? hi).

Definition isDigit (a : ascii) : bool := inRange 48 57 a.
Definition isUpper (a : ascii) : bool := inRange 65 90 a.
Definition isLower (a : ascii) : bool := inRange 97 122 a.

(** [[0-9A-Za-z]] *)
Definition isAlnum (a : ascii) : bool := isDigit a || isUpper a || isLower a.

(** [[0-9a-f]] *)
Definition isLowerHex (a : ascii) : bool := isDigit a || inRange 97 102 a.

(** [[0-9A-Za-z\.-]] *)
Definition isAlnumDotHyphen (a : ascii) : bool :=
  isAlnum a || Ascii.eqb a "." || Ascii.eqb a "-".

(** [[-0-9A-Za-z]] *)
Definition isAlnumHyphen (a : ascii) : bool := Ascii.eqb a "-" || isAlnum a.

(** [\w], which in Go's syntax is the ASCII class [[0-9A-Za-z_]] *)
Definition isWord (a : ascii) : bool := isAlnum a || Ascii.eqb a "_".

(** [[^\w]] *)
Definition isNotWord (a : ascii) : bool := negb (isWord a).

(** [.] without the [s] flag: anything but a line feed *)
Definition isNotNewline (a : ascii) : bool := negb (code a =? 10).

Definition allb (p : ascii -> bool) (s : string) : bool :=
  forallb p (list_ascii_of_string s).

(** ** Package [strings] *)

Module Strings.

(** [strings.HasPrefix(s, prefix)] *)
Fixpoint HasPrefix (s prefix : string) : bool :=
  match prefix, s with
  | EmptyString, _ => true
  | String a p', String b s' => Ascii.eqb a b && HasPrefix s' p'
  | String _ _, EmptyString => false
  end.

(** [strings.Contains(s, substr)] *)
Fixpoint Contains (s substr : string) : bool :=
  HasPrefix s substr ||
  match s with
  | EmptyString => false
  | String _ s' => Contains s' substr
  end.

Definition consHead (a : ascii) (l : list string) : list string :=
  match l with
  | h :: t => String a h :: t
  | [] => [String a ""]
  end.

(** [splitFrom sep skip s]: the pieces of [s] once its first [skip] bytes,
    the tail of a separator already recognised, have been dropped. *)
Fixpoint splitFrom (sep : string) (skip : nat) (s : string) : list string :=
  match s with
  | EmptyString => [""]
  | String a s' =>
      match skip with
      | S n => splitFrom sep n s'
      | O =>
          if HasPrefix s sep
          then "" :: splitFrom sep (String.length sep - 1) s'
          else consHead a (splitFrom sep 0 s')
      end
  end.

(** [strings.Split(s, sep)] for a non-empty [sep] (the program splits on
    [" => "] and on ["/"] only): cut at the successive leftmost
    non-overlapping occurrences of [sep]. *)
Definition Split (s sep : string) : list string := splitFrom sep 0 s.

Definition isASCIISpace (a : ascii) : bool :=
  inRange 9 13 a || (code a =? 32).

(** Width in bytes of the white-space rune that starts [s], 0 when [s] does
    not start with one.  These are the runes of [unicode.IsSpace]: the six
    ASCII ones, U+0085, U+00A0, U+1680, U+2000..U+200A, U+2028, U+2029,
    U+202F, U+205F and U+3000, in their UTF-8 encoding. *)
Definition spaceWidth (s : string) : nat :=
  match s with
  | EmptyString => 0
  | String a r =>
      if isASCIISpace a then 1 else
      match r with
      | EmptyString => 0
      | String b r' =>
          if (code a =? 194) && ((code b =? 133) || (code b =? 160)) then 2 else
          match r' with
          | EmptyString => 0
          | String c _ =>
              if (code a =? 225) && (code b =? 154) && (code c =? 128) then 3
              else if (code a =? 226) && (code b =? 128) &&
                      (inRange 128 138 c || inRange 168 169 c || (code c =? 175))
                   then 3
              else if (code a =? 226) && (code b =? 129) && (code c =? 159) then 3
              else if (code a =? 227) && (code b =? 128) && (code c =? 128) then 3
              else 0
          end
      end
  end.

Definition flush (wl : string * list string) : list string :=
  match fst wl with
  | EmptyString => snd wl
  | w => w :: snd wl
  end.

(** [fieldsFrom skip s]: the word in progress at the head of [s] (after the
    [skip] remaining bytes of a white-space rune) and the fields after it. *)
Fixpoint fieldsFrom (skip : nat) (s : string) : string * list string :=
  match s with
  | EmptyString => ("", [])
  | String a s' =>
      match skip with
      | S n => fieldsFrom n s'
      | O =>
          match spaceWidth s with
          | O => let wl := fieldsFrom 0 s' in (String a (fst wl), snd wl)
          | S n => ("", flush (fieldsFrom n s'))
          end
      end
  end.

(** [strings.Fields(s)]: the maximal runs of non-white-space. *)
Definition Fields (s : string) : list string := flush (fieldsFrom 0 s).

Definition lowerByte (a : ascii) : ascii :=
  if isUpper a then ascii_of_nat (code a + 32) else a.

(** [strings.ToLower(s)] on a string of ASCII bytes, the only kind the
    program passes to it (see [ReplaceAll_groupRe_word]). *)
Fixpoint ToLower (s : string) : string :=
  match s with
  | EmptyString => ""
  | String a s' => String (lowerByte a) (ToLower s')
  end.

End Strings.

(** ** Package [regexp]

    Go's regular expressions have leftmost-first semantics: among the
    matches that start at the leftmost possible position, the one a
    backtracking search finds first, greedy operators preferring more
    repetitions.  [exec] is that backtracking search in continuation-passing
    style.

    A pattern works on runes, the text here is its bytes.  The classes of
    the patterns below are sets of ASCII bytes, but for [.] and [[^\w]]:
    these take every byte of a rune that is not ASCII (and a byte that is
    not valid UTF-8, which is a rune of width 1 for Go), so that a run of
    them over the bytes is a run over the runes; and what may follow [.+] in
    [gopkgInRx], a slash or the end of the text, cannot come inside a rune.
    A match over the bytes therefore cuts the text where the match over the
    runes does. *)

Module Regexp.

Inductive regex : Type :=
| BeginText                              (* \A *)
| EndText                                (* \z *)
| Lit (l : string)                       (* a literal *)
| Class (p : ascii -> bool)              (* one character of a class *)
| Cat (r1 r2 : regex)                    (* r1r2 *)
| Quest (r : regex)                      (* r? *)
| Plus (r : regex)                       (* r+ *)
| Repeat (n : nat) (r : regex)           (* r{n} *)
| Capture (i : nat) (r : regex).         (* (r), the i-th group *)

(** Captured groups, most recent first. *)
Definition caps := list (nat * string).

(** A match in progress ends at an offset, with the text left and the
    groups captured. *)
Definition result := (nat * string * caps)%type.
Definition cont := nat -> string -> caps -> option result.

Fixpoint stripPrefix (l s : string) : option string :=
  match l, s with
  | EmptyString, _ => Some s
  | String a l', String b s' => if Ascii.eqb a b then stripPrefix l' s' else None
  | String _ _, EmptyString => None
  end.

Definition orElse {A} (x y : option A) : option A :=
  match x with
  | Some _ => x
  | None => y
  end.

(** [exec r k pos s c]: match [r] at the head of [s], the text from offset
    [pos] on, then continue with [k]; the first success in priority order. *)
Fixpoint exec (r : regex) (k : cont) (pos : nat) (s : string) (c : caps)
  {struct r} : option result :=
  match r with
  | BeginText => if pos =? 0 then k pos s c else None
  | EndText => match s with EmptyString => k pos s c | String _ _ => None end
  | Lit l =>
      match stripPrefix l s with
      | Some s' => k (pos + String.length l) s' c
      | None => None
      end
  | Class p =>
      match s with
      | String a s' => if p a then k (S pos) s' c else None
      | EmptyString => None
      end
  | Cat r1 r2 => exec r1 (exec r2 k) pos s c
  | Quest r1 => orElse (exec r1 k pos s c) (k pos s c)
  | Plus r1 =>
      (fix loop (n : nat) (pos : nat) (s : string) (c : caps) {struct n}
         : option result :=
         exec r1
           (fun pos' s' c' =>
              match n with
              | O => k pos' s' c'
              | S n' =>
                  orElse (if pos <? pos' then loop n' pos' s' c' else None)
                         (k pos' s' c')
              end)
           pos s c)
        (String.length s) pos s c
  | Repeat n r1 =>
      (fix rep (n : nat) (k : cont) {struct n} : cont :=
         match n with
         | O => k
         | S n' => exec r1 (rep n' k)
         end) n k pos s c
  | Capture i r1 =>
      exec r1 (fun pos' s' c' => k pos' s' ((i, substring 0 (pos' - pos) s) :: c'))
        pos s c
  end.

Definition accept : cont := fun pos s c => Some (pos, s, c).

(** One match: where it starts and ends, the text after it, its groups. *)
Definition found := (nat * nat * string * caps)%type.

(** The leftmost match in [s], the text from offset [pos] on. *)
Fixpoint search (r : regex) (pos : nat) (s : string) : option found :=
  match exec r accept pos s [] with
  | Some (e, rest, c) => Some (pos, e, rest, c)
  | None =>
      match s with
      | EmptyString => None
      | String _ s' => search r (S pos) s'
      end
  end.

(** [re.MatchString(s)] *)
Definition MatchString (re : regex) (s : string) : bool :=
  match search re 0 s with
  | Some _ => true
  | None => false
  end.

(** Number of capture groups, [re.NumSubexp()]. *)
Fixpoint NumSubexp (r : regex) : nat :=
  match r with
  | Cat r1 r2 => Nat.max (NumSubexp r1) (NumSubexp r2)
  | Quest r1 | Plus r1 | Repeat _ r1 => NumSubexp r1
  | Capture i r1 => Nat.max i (NumSubexp r1)
  | _ => 0
  end.

Fixpoint group (c : caps) (i : nat) : string :=
  match c with
  | [] => ""
  | (j, v) :: c' => if i =? j then v else group c' i
  end.

(** A match as [FindAllStringSubmatch] returns it: the matched text, then
    the text of each group, [""] for a group that took no part. *)
Definition submatches (re : regex) (pos : nat) (s : string) (m : found) : list string :=
  match m with
  | (b, e, _, c) =>
      substring (b - pos) (e - b) s :: map (group c) (seq 1 (NumSubexp re))
  end.

(** The loop of [FindAll...]: successive matches, each searched from the end
    of the one before; an empty match right after a match is dropped, and
    the search then moves on by one character (one byte here: no pattern of
    this program matches the empty string). *)
Fixpoint allMatches (re : regex) (fuel pos : nat) (s : string)
  (prevMatchEnd : option nat) : list (list string) :=
  match fuel with
  | O => []
  | S fuel' =>
      match search re pos s with
      | None => []
      | Some (b, e, rest, c) =>
          let m := submatches re pos s (b, e, rest, c) in
          if e =? pos then
            let this :=
              match prevMatchEnd with
              | Some p => if b =? p then [] else [m]
              | None => [m]
              end in
            match s with
            | EmptyString => this
            | String _ s' => this ++ allMatches re fuel' (S pos) s' (Some e)
            end
          else m :: allMatches re fuel' e rest (Some e)
      end
  end.

(** [re.FindAllStringSubmatch(s, -1)] *)
Definition FindAllStringSubmatch (re : regex) (s : string) : list (list string) :=
  allMatches re (S (String.length s)) 0 s None.

(** The loop of [ReplaceAll...]; [pending] is the text between the end of
    the last match and the place the search resumes from. *)
Fixpoint replaceAll (re : regex) (repl : string) (fuel pos : nat) (s : string)
  (lastMatchEnd : nat) (pending : string) : string :=
  match fuel with
  | O => pending ++ s
  | S fuel' =>
      match search re pos s with
      | None => pending ++ s
      | Some (b, e, rest, _) =>
          let before := pending ++ substring 0 (b - pos) s in
          let ins := if (lastMatchEnd <? e) || (b =? 0) then repl else "" in
          if e =? pos then
            match s with
            | EmptyString => before ++ ins
            | String a s' =>
                before ++ ins ++ replaceAll re repl fuel' (S pos) s' e (String a "")
            end
          else before ++ ins ++ replaceAll re repl fuel' e rest e ""
      end
  end.

(** [re.ReplaceAllString(src, repl)] for a replacement without [$], which
    is inserted as it is. *)
Definition ReplaceAllString (re : regex) (src repl : string) : string :=
  replaceAll re repl (S (String.length src)) 0 src 0 "".

End Regexp.

(** ** The program *)

Import Strings Regexp.

Declare Scope regex_scope.
Delimit Scope regex_scope with re.
Bind Scope regex_scope with regex.
Infix ";;" := Cat (at level 61, right associativity) : regex_scope.

Record Package : Type := mkPackage {
  Name : string;    (* full package name *)
  Account : string; (* Github account *)
  Project : string; (* Github project *)
  Tag : string      (* tag or commit ID *)
}.

(** The errors [ParsePackage] builds with [fmt.Errorf], each with the text
    it quotes. *)
Inductive error : Type :=
| UnexpectedNumberOfPackages (spec : string)
| UnexpectedNumberOfFields (spec : string)
| UnexpectedGithubName (name : string)
| UnexpectedVersion (version : string).

Inductive outcome : Type :=
| Ok (p : Package)
| Err (e : error).

(** [\A(v\d+\.\d+\.\d+(?:-[0-9A-Za-z]+[0-9A-Za-z\.-]+)?)(?:\+incompatible)?\z] *)
Definition versionRx : regex :=
  (BeginText ;;
   Capture 1
     (Lit "v" ;; Plus (Class isDigit) ;; Lit "." ;; Plus (Class isDigit) ;; Lit "." ;;
      Plus (Class isDigit) ;;
      Quest (Lit "-" ;; Plus (Class isAlnum) ;; Plus (Class isAlnumDotHyphen))) ;;
   Quest (Lit "+incompatible") ;;
   EndText)%re.

(** [\Av\d+\.\d+\.\d+-(?:\d+\.)?\d{14}-([0-9a-f]{7})[0-9a-f]+\z] *)
Definition tagRx : regex :=
  (BeginText ;;
   Lit "v" ;; Plus (Class isDigit) ;; Lit "." ;; Plus (Class isDigit) ;; Lit "." ;;
   Plus (Class isDigit) ;; Lit "-" ;;
   Quest (Plus (Class isDigit) ;; Lit ".") ;;
   Repeat 14 (Class isDigit) ;; Lit "-" ;;
   Capture 1 (Repeat 7 (Class isLowerHex)) ;;
   Plus (Class isLowerHex) ;;
   EndText)%re.

(** [\Agopkg\.in/([0-9A-Za-z][-0-9A-Za-z]+)(?:\.v.+)?(?:/([0-9A-Za-z][-0-9A-Za-z]+)(?:\.v.+))?\z] *)
Definition gopkgInRx : regex :=
  (BeginText ;;
   Lit "gopkg.in/" ;;
   Capture 1 (Class isAlnum ;; Plus (Class isAlnumHyphen)) ;;
   Quest (Lit ".v" ;; Plus (Class isNotNewline)) ;;
   Quest (Lit "/" ;;
          Capture 2 (Class isAlnum ;; Plus (Class isAlnumHyphen)) ;;
          (Lit ".v" ;; Plus (Class isNotNewline))) ;;
   EndText)%re.

(** [gopkg.in/pkg.v3 -> github.com/go-pkg/pkg],
    [gopkg.in/user/pkg.v3 -> github.com/user/pkg] *)
Definition parseGopkgInPackage (name : string) : string * string :=
  match FindAllStringSubmatch gopkgInRx name with
  | [] => ("", "")
  | sm0 :: _ =>
      if (nth 2 sm0 "" =? "")%string
      then ("go-" ++ nth 1 sm0 "", nth 1 sm0 "")
      else (nth 1 sm0 "", nth 2 sm0 "")
  end.

(** [\Agolang\.org/x/([0-9A-Za-z][-0-9A-Za-z]+)\z] *)
Definition golangOrgRx : regex :=
  (BeginText ;;
   Lit "golang.org/x/" ;;
   Capture 1 (Class isAlnum ;; Plus (Class isAlnumHyphen)) ;;
   EndText)%re.

(** [golang.org/x/pkg -> github.com/golang/pkg] *)
Definition parseGolangOrgPackage (name : string) : string * string :=
  match FindAllStringSubmatch golangOrgRx name with
  | [] => ("", "")
  | sm0 :: _ => ("golang", nth 1 sm0 "")
  end.

(** The fields [Account] and [Project] of [WellKnown], named apart from
    those of [Package]. *)
Record WellKnown : Type := mkWellKnown {
  wkAccount : string; (* Github account *)
  wkProject : string  (* Github project *)
}.

(** List of well-known Github mirrors: a Go map literal, as the list of its
    entries (the keys are distinct, [wellKnownPackages_NoDup]). *)
Definition wellKnownPackages : list (string * WellKnown) :=
  [ ("cloud.google.com/go", mkWellKnown "googleapis" "google-cloud-go");
    ("contrib.go.opencensus.io/exporter/ocagent",
       mkWellKnown "census-ecosystem" "opencensus-go-exporter-ocagent");
    ("docker.io/go-docker", mkWellKnown "docker" "go-docker");
    ("git.apache.org/thrift.git", mkWellKnown "apache" "thrift");
    ("go.opencensus.io", mkWellKnown "census-instrumentation" "opencensus-go");
    ("go.uber.org/atomic", mkWellKnown "uber-go" "atomic");
    ("google.golang.org/api", mkWellKnown "googleapis" "google-api-go-client");
    ("google.golang.org/appengine", mkWellKnown "golang" "appengine");
    ("google.golang.org/genproto", mkWellKnown "google" "go-genproto");
    ("google.golang.org/grpc", mkWellKnown "grpc" "grpc-go");
    ("gopkg.in/fsnotify.v1", mkWellKnown "fsnotify" "fsnotify") ].

(** [wk, ok := m[name]] *)
Fixpoint lookup (m : list (string * WellKnown)) (name : string) : option WellKnown :=
  match m with
  | [] => None
  | (k, v) :: m' => if (k =? name)%string then Some v else lookup m' name
  end.

Definition replaceOp : string := " => ".

(** The block [// Parse package name] of [ParsePackage]: the account and the
    project of [name], or the error of a malformed Github name. *)
Definition parseName (name : string) : error + string * string :=
  match lookup wellKnownPackages name with
  | Some wk => inr (wkAccount wk, wkProject wk)
  | None =>
      if HasPrefix name "github.com" then
        match Split name "/" with
        | _ :: account :: project :: _ => inr (account, project)
        | _ => inl (UnexpectedGithubName name)
        end
      else if HasPrefix name "gopkg.in" then inr (parseGopkgInPackage name)
      else if HasPrefix name "golang.org" then inr (parseGolangOrgPackage name)
      else inr ("", "")
  end.

(** The block [// Parse version] of [ParsePackage]: the tag, [sm[0][1]] of
    the first pattern that matches. *)
Definition parseVersion (version : string) : option string :=
  if MatchString tagRx version then
    Some (nth 1 (nth 0 (FindAllStringSubmatch tagRx version) []) "")
  else if MatchString versionRx version then
    Some (nth 1 (nth 0 (FindAllStringSubmatch versionRx version) []) "")
  else None.

(** [ParsePackage], with [fuel] bounding the depth of its recursion on the
    two sides of a replace spec; [None] when the bound is reached. *)
Fixpoint ParsePackageAt (fuel : nat) (spec : string) : option outcome :=
  if Contains spec replaceOp then
    (* Replaced package spec *)
    match fuel with
    | O => None
    | S fuel' =>
        match Split spec replaceOp with
        | [old; new] =>
            match ParsePackageAt fuel' old with
            | None => None
            | Some (Err err) => Some (Err err)
            | Some (Ok pOld) =>
                match ParsePackageAt fuel' new with
                | None => None
                | Some (Err err) => Some (Err err)
                | Some (Ok p) =>
                    (* Keep the old package Name but with new Account, Project and Tag *)
                    Some (Ok (mkPackage (Name pOld) (Account p) (Project p) (Tag p)))
                end
            end
        | _ => Some (Err (UnexpectedNumberOfPackages spec))
        end
    end
  else
    (* Regular package spec *)
    match Fields spec with
    | [name; version] =>
        match parseName name with
        | inl err => Some (Err err)
        | inr (account, project) =>
            match parseVersion version with
            | Some tag => Some (Ok (mkPackage name account project tag))
            | None => Some (Err (UnexpectedVersion version))
            end
        end
    | _ => Some (Err (UnexpectedNumberOfFields spec))
    end.

(** Each side of a replace spec is shorter than the spec, so its length
    bounds the depth ([ParsePackage_total]). *)
Definition ParsePackage (spec : string) : option outcome :=
  ParsePackageAt (String.length spec) spec.

Definition Parsed (p : Package) : bool :=
  negb (Account p =? "")%string && negb (Project p =? "")%string.

(** [[^\w]+] *)
Definition groupRe : regex := Plus (Class isNotWord).

Definition Group (p : Package) : string :=
  let g := Account p ++ "_" ++ Project p in
  let g := ReplaceAllString groupRe g "_" in
  ToLower g.

(** [p.String()]; [packagePrefix] is the value of the [-prefix] flag. *)
Definition PackageString (packagePrefix : string) (p : Package) : string :=
  Account p ++ ":" ++ Project p ++ ":" ++ Tag p ++ ":" ++
  Group p ++ "/" ++ packagePrefix ++ "/" ++ Name p.

(** [pp.Less(i, j)] on the two elements: [<] on Go strings compares bytes. *)
Definition Less (packagePrefix : string) (p q : Package) : bool :=
  (PackageString packagePrefix p <? PackageString packagePrefix q)%string.

(** [sort.Sort] leaves the slice in an order [sort.IsSorted] accepts: no
    element is [Less] than the one before it. *)
Definition IsSorted (packagePrefix : string) (pp : list Package) : Prop :=
  Sorted (fun p q => Less packagePrefix q p = false) pp.

Definition specPrefix : string := "# ".

(** [strings.TrimPrefix(s, prefix)] *)
Definition TrimPrefix (s prefix : string) : string :=
  match stripPrefix prefix s with
  | Some s' => s'
  | None => s
  end.

(** The scanning loop of [main] over the lines of the manifest, threading
    [parsedPackages] and [unparsedPackages]; it stops at the first error. *)
Fixpoint scanLines (lines : list string) (parsedPackages unparsedPackages : list Package)
  : option (error + list Package * list Package) :=
  match lines with
  | [] => Some (inr (parsedPackages, unparsedPackages))
  | line :: lines' =>
      if HasPrefix line specPrefix then
        match ParsePackage (TrimPrefix line specPrefix) with
        | None => None
        | Some (Err err) => Some (inl err)
        | Some (Ok pkg) =>
            if Parsed pkg
            then scanLines lines' (parsedPackages ++ [pkg])%list unparsedPackages
            else scanLines lines' parsedPackages (unparsedPackages ++ [pkg])%list
        end
      else scanLines lines' parsedPackages unparsedPackages
  end.

Definition tab : string := String (ascii_of_nat 9) "".
Definition newline : string := String (ascii_of_nat 10) "".

(** The loop printing the resolved packages; [n] is
    [len(parsedPackages)-1] and [i] the index of the head of [pp]. *)
Fixpoint printParsed (packagePrefix : string) (n i : nat) (pp : list Package) : string :=
  match pp with
  | [] => ""
  | p :: pp' =>
      tab ++ tab ++ PackageString packagePrefix p ++
      (if i <? n then " \" else "") ++ newline ++
      printParsed packagePrefix n (S i) pp'
  end.

Fixpoint printUnparsed (packagePrefix : string) (pp : list Package) : string :=
  match pp with
  | [] => ""
  | p :: pp' =>
      "#" ++ tab ++ tab ++ PackageString packagePrefix p ++ newline ++
      printUnparsed packagePrefix pp'
  end.

(** What [main] writes to standard output for the packages of the two
    lists, the first one sorted already. *)
Definition printTuple (packagePrefix : string) (parsedPackages unparsedPackages : list Package)
  : string :=
  "GH_TUPLE=" ++ tab ++ "\" ++ newline ++
  printParsed packagePrefix (List.length parsedPackages - 1) 0 parsedPackages ++
  printUnparsed packagePrefix unparsedPackages.

(** [main] once the flags are parsed and the manifest is read: from the
    lines of the file to the error that ends the run with status 1 or to the
    text written to standard output.  [sortSort] stands for [sort.Sort] on a
    [PackagesByAccountAndProject]. *)
Definition main (sortSort : list Package -> list Package) (packagePrefix : string)
  (lines : list string) : option (error + string) :=
  match scanLines lines [] [] with
  | None => None
  | Some (inl err) => Some (inl err)
  | Some (inr (parsedPackages, unparsedPackages)) =>
      Some (inr (printTuple packagePrefix (sortSort parsedPackages) unparsedPackages))
  end.

(** [pp.Len()] *)
Definition Len (pp : list Package) : nat := List.length pp.

(** [pp[i] = x]; the slice is left as it is when [i] is out of range, which
    [Swap] excludes before it assigns. *)
Fixpoint setAt (pp : list Package) (i : nat) (x : Package) : list Package :=
  match pp, i with
  | [], _ => []
  | _ :: pp', O => x :: pp'
  | p :: pp', S i' => p :: setAt pp' i' x
  end.

(** [pp.Swap(i, j)]: [pp[i], pp[j] = pp[j], pp[i]], both right-hand sides
    read before either assignment; [None] is the panic of an index out of
    range. *)
Definition Swap (pp : list Package) (i j : nat) : option (list Package) :=
  match nth_error pp i, nth_error pp j with
  | Some pi, Some pj => Some (setAt (setAt pp i pj) j pi)
  | _, _ => None
  end.

(** [pp.Less(i, j)] by index; [None] is the panic of an index out of range. *)
Definition LessAt (packagePrefix : string) (pp : list Package) (i j : nat) : option bool :=
  match nth_error pp i, nth_error pp j with
  | Some pi, Some pj => Some (Less packagePrefix pi pj)
  | _, _ => None
  end.

(** * Vocabulary of the properties *)

(** [startsOutside p s]: [s] does not start with a character of [p], so a
    run of [p] cannot go on into [s]. *)
Definition startsOutside (p : ascii -> bool) (s : string) : bool :=
  match s with
  | EmptyString => true
  | String a _ => negb (p a)
  end.

(** The longest prefix of [s] made of characters of [p], and what follows. *)
Fixpoint span (p : ascii -> bool) (s : string) : string * string :=
  match s with
  | EmptyString => ("", "")
  | String a s' =>
      if p a then let rt := span p s' in (String a (fst rt), snd rt)
      else ("", s)
  end.

(** The greedy run [p+] spelled out: more characters first. *)
Fixpoint greedy (p : ascii -> bool) (k : cont) (pos : nat) (s : string) (c : caps)
  : option result :=
  match s with
  | EmptyString => None
  | String a s' =>
      if p a
      then orElse (greedy p k (S pos) s' c) (k (S pos) s' c)
      else None
  end.

(** [takes r x rest u]: before [rest], the first way in which [r] can match
    with the continuation succeeding is to take exactly [x], the groups
    changing by [u]. *)
Definition takes (r : regex) (x rest : string) (u : caps -> caps) : Prop :=
  forall (k : cont) (pos : nat) (c : caps) (y : result),
    k (pos + String.length x) rest (u c) = Some y ->
    exec r k pos (x ++ rest) c = Some y.

(** [fails r s]: [r] matches no prefix of [s]. *)
Definition fails (r : regex) (s : string) : Prop :=
  forall (k : cont) (pos : nat) (c : caps), exec r k pos s c = None.

Definition keep : caps -> caps := fun c => c.

(** A spec without the replace operator whose two fields are [name] and
    [version]. *)
Definition plainSpec (spec name version : string) : Prop :=
  Contains spec replaceOp = false /\ Fields spec = [name; version].

(** A non-empty string of decimal digits. *)
Definition isNumber (s : string) : bool :=
  negb (s =? "")%string && allb isDigit s.

(** [v<major>.<minor>.<patch>] *)
Definition coreText (major minor patch : string) : string :=
  "v" ++ major ++ "." ++ minor ++ "." ++ patch.

Definition isCore (major minor patch : string) : bool :=
  isNumber major && isNumber minor && isNumber patch.

(** The optional [<N>.] of a pseudo-version. *)
Definition counterText (n : option string) : string :=
  match n with
  | Some d => d ++ "."
  | None => ""
  end.

Definition isCounter (n : option string) : bool :=
  match n with
  | Some d => isNumber d
  | None => true
  end.

(** [v<major>.<minor>.<patch>-[<N>.]<14-digit-timestamp>-<hex-commit>] *)
Definition pseudoVersionText (major minor patch : string) (n : option string)
  (timestamp commit : string) : string :=
  coreText major minor patch ++ "-" ++ counterText n ++ timestamp ++ "-" ++ commit.

(** The parts of a pseudo-version whose commit has [least] or more lowercase
    hexadecimal characters. *)
Definition isPseudoVersion (least : nat) (major minor patch : string) (n : option string)
  (timestamp commit : string) : bool :=
  isCore major minor patch && isCounter n &&
  (String.length timestamp =? 14) && allb isDigit timestamp &&
  (least <=? String.length commit) && allb isLowerHex commit.

(** A version string is a pseudo-version when it has such parts. *)
Definition pseudoVersion (least : nat) (version : string) : Prop :=
  exists major minor patch n timestamp commit,
    isPseudoVersion least major minor patch n timestamp commit = true /\
    version = pseudoVersionText major minor patch n timestamp commit.

(** The optional [-<prerelease>] and [+incompatible] of a semantic version. *)
Definition prereleaseText (pre : option string) : string :=
  match pre with
  | Some s => "-" ++ s
  | None => ""
  end.

Definition incompatibleText (incompatible : bool) : string :=
  if incompatible then "+incompatible" else "".

(** A prerelease of [least] or more characters: an alphanumeric, then
    alphanumerics, dots and hyphens. *)
Definition isPrerelease (least : nat) (pre : option string) : bool :=
  match pre with
  | Some (String a s) =>
      isAlnum a && allb isAlnumDotHyphen s && (least <=? S (String.length s))
  | Some EmptyString => false
  | None => true
  end.

(** [v<major>.<minor>.<patch>[-<prerelease>][+incompatible]] *)
Definition semverText (major minor patch : string) (pre : option string)
  (incompatible : bool) : string :=
  coreText major minor patch ++ prereleaseText pre ++ incompatibleText incompatible.

(** A package or user name in a module path: an alphanumeric, then one or
    more alphanumerics or hyphens. *)
Definition isPkgName (s : string) : bool :=
  match s with
  | String a r => isAlnum a && negb (r =? "")%string && allb isAlnumHyphen r
  | EmptyString => false
  end.

(** What may follow [.v] in a [gopkg.in] path: one or more characters, none
    a line feed. *)
Definition isSuffix (s : string) : bool :=
  negb (s =? "")%string && allb isNotNewline s.

(** The [gopkg.in] paths that resolve, with their account and project. *)
Inductive gopkgInForm : string -> string -> string -> Prop :=
| gopkgIn_pkg (pkg ver : string) :
    isPkgName pkg = true -> isSuffix ver = true ->
    gopkgInForm ("gopkg.in/" ++ pkg ++ ".v" ++ ver) ("go-" ++ pkg) pkg
| gopkgIn_user (user pkg ver : string) :
    isPkgName user = true -> isPkgName pkg = true -> isSuffix ver = true ->
    gopkgInForm ("gopkg.in/" ++ user ++ "/" ++ pkg ++ ".v" ++ ver) user pkg
| gopkgIn_bare (pkg : string) :
    isPkgName pkg = true ->
    gopkgInForm ("gopkg.in/" ++ pkg) ("go-" ++ pkg) pkg.

(** [golang.org/x/<pkg>] *)
Definition golangOrgForm (name pkg : string) : Prop :=
  isPkgName pkg = true /\ name = "golang.org/x/" ++ pkg.

(** The grouping key in the words of the specification: every maximal run
    of characters that are not a letter, a digit or an underscore becomes a
    single underscore.  [inRun] tells that the character before was of such
    a run, whose underscore is written already. *)
Definition isLetter (a : ascii) : bool := isUpper a || isLower a.

Definition isKept (a : ascii) : bool := isLetter a || isDigit a || Ascii.eqb a "_".

Fixpoint collapseFrom (inRun : bool) (s : string) : string :=
  match s with
  | EmptyString => ""
  | String a s' =>
      if isKept a then String a (collapseFrom false s')
      else if inRun then collapseFrom true s'
      else String "_" (collapseFrom true s')
  end.

Definition collapseRuns (s : string) : string := collapseFrom false s.

(** The specs of a manifest: its lines that start with the marker, the
    marker removed, in the order of the file. *)
Definition specsOf (lines : list string) : list string :=
  map (fun line => TrimPrefix line specPrefix)
      (filter (fun line => HasPrefix line specPrefix) lines).

(** The lines of the output: one per resolved package, all but the last
    continued by a backslash, then one comment per unresolved package. *)
Definition headerLine : string := "GH_TUPLE=" ++ tab ++ "\" ++ newline.

Definition tupleLine (packagePrefix : string) (last : bool) (p : Package) : string :=
  tab ++ tab ++ PackageString packagePrefix p ++ (if last then "" else " \") ++ newline.

Fixpoint tupleBlock (packagePrefix : string) (pp : list Package) : list string :=
  match pp with
  | [] => []
  | [p] => [tupleLine packagePrefix true p]
  | p :: pp' => tupleLine packagePrefix false p :: tupleBlock packagePrefix pp'
  end.

Definition commentLine (packagePrefix : string) (p : Package) : string :=
  "#" ++ tab ++ tab ++ PackageString packagePrefix p ++ newline.


(** One order [sort.Sort] may leave: that of a sort by insertion. *)
Fixpoint insertByLess (packagePrefix : string) (p : Package) (pp : list Package)
  : list Package :=
  match pp with
  | [] => [p]
  | q :: pp' =>
      if Less packagePrefix q p then q :: insertByLess packagePrefix p pp'
      else p :: pp
  end.

Definition insertionSort (packagePrefix : string) (pp : list Package) : list Package :=
  fold_right (insertByLess packagePrefix) [] pp.

(** The number of places of [s] at which [sep] occurs. *)
Fixpoint occurrences (s sep : string) : nat :=
  (if HasPrefix s sep then 1 else 0) +
  match s with
  | EmptyString => 0
  | String _ s' => occurrences s' sep
  end.

(** No white-space rune starts anywhere in [s]. *)
Fixpoint noSpace (s : string) : bool :=
  match s with
  | EmptyString => true
  | String _ s' => (spaceWidth s =? 0) && noSpace s'
  end.

(** A token, what [Fields] takes for one field: non-empty and without
    white space. *)
Definition isToken (s : string) : bool := negb (s =? "")%string && noSpace s.

(** The visible ASCII characters. *)
Definition isGraphic (a : ascii) : bool := inRange 33 126 a.

(** A version string is a semantic version when it is
    [v<major>.<minor>.<patch>[-<prerelease>][+incompatible]] with a
    prerelease of two or more characters. *)
Definition semanticVersion (version : string) : Prop :=
  exists major minor patch pre incompatible,
    isCore major minor patch = true /\ isPrerelease 2 pre = true /\
    version = semverText major minor patch pre incompatible.

(** The number of slashes of a name. *)
Fixpoint countSlash (s : string) : nat :=
  match s with
  | EmptyString => 0
  | String a s' => (if Ascii.eqb a "/" then 1 else 0) + countSlash s'
  end.

(** What [Group] is made of: [[0-9a-z_]]. *)
Definition isGroupChar (a : ascii) : bool :=
  isDigit a || isLower a || Ascii.eqb a "_".

(** The scanning loop of [main] on the specs alone. *)
Fixpoint scanSpecs (specs : list string) (parsedPackages unparsedPackages : list Package)
  : option (error + list Package * list Package) :=
  match specs with
  | [] => Some (inr (parsedPackages, unparsedPackages))
  | spec :: specs' =>
      match ParsePackage spec with
      | None => None
      | Some (Err err) => Some (inl err)
      | Some (Ok pkg) =>
          if Parsed pkg
          then scanSpecs specs' (parsedPackages ++ [pkg])%list unparsedPackages
          else scanSpecs specs' parsedPackages (unparsedPackages ++ [pkg])%list
      end
  end.

(** What [sort.Sort] promises of its result on every slice. *)
Definition sorts (packagePrefix : string) (sortSort : list Package -> list Package) : Prop :=
  forall pp, Permutation (sortSort pp) pp /\ IsSorted packagePrefix (sortSort pp).

(** [c] occurs in [s]. *)
Fixpoint hasChar (c : ascii) (s : string) : bool :=
  match s with
  | EmptyString => false
  | String a s' => Ascii.eqb a c || hasChar c s'
  end.





(** * Properties *)

(** ** Strings *)

Section StringFacts.

Lemma append_nil_r (s : string) : s ++ "" = s.
Proof. induction s; simpl; congruence. Qed.

Lemma append_assoc (s t u : string) : (s ++ t) ++ u = s ++ t ++ u.
Proof. induction s; simpl; congruence. Qed.

Lemma length_append (s t : string) :
  String.length (s ++ t) = String.length s + String.length t.
Proof. induction s; simpl; congruence. Qed.

Lemma substring_0_append (s t : string) :
  substring 0 (String.length s) (s ++ t) = s.
Proof. induction s; simpl; [ destruct t; reflexivity | congruence ]. Qed.

Lemma substring_0_all (s : string) : substring 0 (String.length s) s = s.
Proof. rewrite <- (append_nil_r s) at 2. apply substring_0_append. Qed.

Lemma substring_0_length (n : nat) (s : string) :
  n <= String.length s -> String.length (substring 0 n s) = n.
Proof.
  revert n; induction s as [|a s IH]; intros [|n] H; simpl in *;
    try lia; try reflexivity.
  rewrite IH; lia.
Qed.

Lemma substring_split (n : nat) (s : string) :
  n <= String.length s ->
  s = substring 0 n s ++ substring n (String.length s - n) s.
Proof.
  revert n; induction s as [|a s IH]; intros [|n] H; simpl in *;
    try lia; try reflexivity.
  - f_equal. symmetry. apply substring_0_all.
  - f_equal. apply IH. lia.
Qed.

Lemma allb_nil (p : ascii -> bool) : allb p "" = true.
Proof. reflexivity. Qed.

Lemma allb_cons (p : ascii -> bool) (a : ascii) (s : string) :
  allb p (String a s) = p a && allb p s.
Proof. reflexivity. Qed.

Lemma allb_append (p : ascii -> bool) (s t : string) :
  allb p (s ++ t) = allb p s && allb p t.
Proof.
  induction s as [|a s IH]; simpl; [reflexivity|].
  rewrite !allb_cons, IH. apply andb_assoc.
Qed.

Lemma allb_impl (p q : ascii -> bool) (s : string) :
  (forall a, p a = true -> q a = true) -> allb p s = true -> allb q s = true.
Proof.
  intros Hpq. induction s as [|a s IH]; [reflexivity|].
  rewrite !allb_cons, !andb_true_iff. intros [Ha Hs]. auto.
Qed.

End StringFacts.

Lemma span_spec (p : ascii -> bool) (s : string) :
  s = fst (span p s) ++ snd (span p s) /\
  allb p (fst (span p s)) = true /\
  startsOutside p (snd (span p s)) = true.
Proof.
  induction s as [|a s (IH1 & IH2 & IH3)]; simpl; [auto|].
  destruct (p a) eqn:Ha; simpl.
  - rewrite allb_cons, Ha, IH2. repeat split; auto. congruence.
  - rewrite Ha. auto.
Qed.

(** ** The matcher *)

Section RegexpFacts.

Lemma stripPrefix_append (l s : string) : stripPrefix l (l ++ s) = Some s.
Proof. induction l as [|a l IH]; simpl; [reflexivity|]. now rewrite Ascii.eqb_refl. Qed.

Lemma stripPrefix_Some (l s s' : string) : stripPrefix l s = Some s' -> s = l ++ s'.
Proof.
  revert s; induction l as [|a l IH]; intros [|b s]; simpl; try congruence.
  destruct (Ascii.eqb_spec a b); [|discriminate].
  intros H; apply IH in H. congruence.
Qed.

Lemma stripPrefix_HasPrefix (l s : string) :
  Strings.HasPrefix s l = match stripPrefix l s with Some _ => true | None => false end.
Proof.
  revert s; induction l as [|a l IH]; intros [|b s]; simpl; try reflexivity.
  destruct (Ascii.eqb a b); simpl; auto.
Qed.

Lemma exec_Plus_Class (p : ascii -> bool) (k : cont) (pos : nat) (s : string) (c : caps) :
  exec (Plus (Class p)) k pos s c = greedy p k pos s c.
Proof.
  simpl.
  assert (H : forall n s pos, String.length s <= n ->
    (fix loop (n : nat) (pos : nat) (s : string) (c : caps) {struct n} : option result :=
       match s with
       | EmptyString => None
       | String a s' =>
           if p a
           then match n with
                | O => k (S pos) s' c
                | S n' => orElse (if pos <? S pos then loop n' (S pos) s' c else None)
                                 (k (S pos) s' c)
                end
           else None
       end) n pos s c = greedy p k pos s c).
  { clear. induction n as [|n IH]; intros [|a s] pos Hlen; simpl in *; try reflexivity; try lia.
    destruct (p a); [|reflexivity].
    assert (Hlt : (pos <? S pos) = true) by (apply Nat.ltb_lt; lia).
    rewrite Hlt, IH by lia. reflexivity. }
  apply H. lia.
Qed.

Lemma exec_Cat (r1 r2 : regex) (k : cont) (pos : nat) (s : string) (c : caps) :
  exec (Cat r1 r2) k pos s c = exec r1 (exec r2 k) pos s c.
Proof. reflexivity. Qed.

Lemma exec_Quest (r : regex) (k : cont) (pos : nat) (s : string) (c : caps) :
  exec (Quest r) k pos s c = orElse (exec r k pos s c) (k pos s c).
Proof. reflexivity. Qed.

Lemma exec_Capture (i : nat) (r : regex) (k : cont) (pos : nat) (s : string) (c : caps) :
  exec (Capture i r) k pos s c =
  exec r (fun pos' s' c' => k pos' s' ((i, substring 0 (pos' - pos) s) :: c')) pos s c.
Proof. reflexivity. Qed.

Lemma exec_BeginText (k : cont) (pos : nat) (s : string) (c : caps) :
  exec BeginText k pos s c = if pos =? 0 then k pos s c else None.
Proof. reflexivity. Qed.

Lemma exec_Repeat_S (n : nat) (r : regex) (k : cont) (pos : nat) (s : string) (c : caps) :
  exec (Repeat (S n) r) k pos s c = exec r (exec (Repeat n r) k) pos s c.
Proof. reflexivity. Qed.

Lemma orElse_Some {A} (x y : option A) (v : A) :
  orElse x y = Some v -> x = Some v \/ (x = None /\ y = Some v).
Proof. destruct x; simpl; auto. Qed.

Lemma takes_Lit (l rest : string) : takes (Lit l) l rest keep.
Proof. intros k pos c y H. simpl. now rewrite stripPrefix_append. Qed.

Lemma takes_Class (p : ascii -> bool) (a : ascii) (rest : string) :
  p a = true -> takes (Class p) (String a "") rest keep.
Proof.
  intros Ha k pos c y H. simpl. rewrite Ha.
  simpl in H. now rewrite Nat.add_1_r in H.
Qed.

Lemma takes_EndText : takes EndText "" "" keep.
Proof. intros k pos c y H. simpl in *. now rewrite Nat.add_0_r in H. Qed.

Lemma takes_Cat (r1 r2 : regex) (x y rest : string) (u1 u2 : caps -> caps) :
  takes r1 x (y ++ rest) u1 -> takes r2 y rest u2 ->
  takes (Cat r1 r2) (x ++ y) rest (fun c => u2 (u1 c)).
Proof.
  intros H1 H2 k pos c v H. rewrite exec_Cat, append_assoc.
  apply H1, H2. now rewrite length_append, Nat.add_assoc in H.
Qed.

Lemma greedy_run (p : ascii -> bool) (k : cont) (x rest : string) (pos : nat)
  (c : caps) (y : result) :
  allb p x = true -> x <> "" -> startsOutside p rest = true ->
  k (pos + String.length x) rest c = Some y ->
  greedy p k pos (x ++ rest) c = Some y.
Proof.
  revert pos. induction x as [|a x IH]; intros pos Hx Hne Hrest H; [congruence|].
  rewrite allb_cons in Hx. apply andb_true_iff in Hx as [Ha Hx].
  simpl. rewrite Ha. destruct x as [|b x].
  - simpl in *. rewrite Nat.add_1_r in H. rewrite H.
    destruct rest as [|b rest]; simpl in *; [reflexivity|].
    apply negb_true_iff in Hrest. now rewrite Hrest.
  - rewrite (IH (S pos)); auto; [discriminate|].
    simpl in *. now rewrite Nat.add_succ_r in H.
Qed.

Lemma takes_Plus_Class (p : ascii -> bool) (x rest : string) :
  allb p x = true -> x <> "" -> startsOutside p rest = true ->
  takes (Plus (Class p)) x rest keep.
Proof. intros Hx Hne Hr k pos c y H. rewrite exec_Plus_Class. now apply greedy_run. Qed.

Lemma takes_Repeat_Class (p : ascii -> bool) (x rest : string) :
  allb p x = true -> takes (Repeat (String.length x) (Class p)) x rest keep.
Proof.
  induction x as [|a x IH]; intros Hx k pos c y H.
  - simpl in *. now rewrite Nat.add_0_r in H.
  - rewrite allb_cons in Hx. apply andb_true_iff in Hx as [Ha Hx].
    change (String.length (String a x)) with (S (String.length x)).
    rewrite exec_Repeat_S. simpl. rewrite Ha.
    apply (IH Hx). simpl in H. now rewrite Nat.add_succ_r in H.
Qed.

Lemma takes_Quest (r : regex) (x rest : string) (u : caps -> caps) :
  takes r x rest u -> takes (Quest r) x rest u.
Proof. intros Hr k pos c y H. rewrite exec_Quest, (Hr k pos c y H). reflexivity. Qed.

Lemma takes_Quest_skip (r : regex) (rest : string) :
  fails r rest -> takes (Quest r) "" rest keep.
Proof.
  intros Hr k pos c y H. rewrite exec_Quest, Hr. simpl in *.
  now rewrite Nat.add_0_r in H.
Qed.

Lemma takes_Capture (i : nat) (r : regex) (x rest : string) (u : caps -> caps) :
  takes r x rest u -> takes (Capture i r) x rest (fun c => (i, x) :: u c).
Proof.
  intros Hr k pos c y H. rewrite exec_Capture. apply Hr.
  replace (pos + String.length x - pos) with (String.length x) by lia.
  now rewrite substring_0_append.
Qed.

Lemma takes_accept (r : regex) (x : string) (u : caps -> caps) :
  takes r x "" u -> exec r accept 0 x [] = Some (String.length x, "", u []).
Proof. intros Hr. rewrite <- (append_nil_r x) at 1. now apply Hr. Qed.

Lemma fails_Lit (l s : string) : stripPrefix l s = None -> fails (Lit l) s.
Proof. intros H k pos c. simpl. now rewrite H. Qed.

Lemma fails_Class (p : ascii -> bool) (s : string) :
  startsOutside p s = true -> fails (Class p) s.
Proof.
  intros H k pos c. destruct s as [|a s]; simpl in *; [reflexivity|].
  apply negb_true_iff in H. now rewrite H.
Qed.

Lemma fails_Cat (r1 r2 : regex) (s : string) : fails r1 s -> fails (Cat r1 r2) s.
Proof. intros H k pos c. rewrite exec_Cat. apply H. Qed.

Lemma fails_Capture (i : nat) (r : regex) (s : string) : fails r s -> fails (Capture i r) s.
Proof. intros H k pos c. rewrite exec_Capture. apply H. Qed.

Lemma greedy_none (p : ascii -> bool) (k : cont) (x rest : string) (pos : nat) (c : caps) :
  allb p x = true -> startsOutside p rest = true ->
  (forall pre suf, x = pre ++ suf -> pre <> "" ->
                   k (pos + String.length pre) (suf ++ rest) c = None) ->
  greedy p k pos (x ++ rest) c = None.
Proof.
  revert pos. induction x as [|a x IH]; intros pos Hx Hrest H.
  - destruct rest as [|b rest]; simpl in *; [reflexivity|].
    apply negb_true_iff in Hrest. now rewrite Hrest.
  - rewrite allb_cons in Hx. apply andb_true_iff in Hx as [Ha Hx].
    simpl. rewrite Ha, IH; auto.
    + simpl. specialize (H (String a "") x eq_refl). simpl in H.
      rewrite Nat.add_1_r in H. apply H. discriminate.
    + intros pre suf -> Hne. specialize (H (String a pre) suf eq_refl).
      simpl in H. rewrite Nat.add_succ_r in H. apply H. discriminate.
Qed.

(** *** What a successful match tells about the text *)

Lemma exec_Lit_inv (l : string) (k : cont) (pos : nat) (s : string) (c : caps) (y : result) :
  exec (Lit l) k pos s c = Some y ->
  exists s', s = l ++ s' /\ k (pos + String.length l) s' c = Some y.
Proof.
  simpl. destruct (stripPrefix l s) as [s'|] eqn:E; [|discriminate].
  intros H. exists s'. split; [now apply stripPrefix_Some|assumption].
Qed.

Lemma exec_Class_inv (p : ascii -> bool) (k : cont) (pos : nat) (s : string) (c : caps)
  (y : result) :
  exec (Class p) k pos s c = Some y ->
  exists a s', s = String a s' /\ p a = true /\ k (S pos) s' c = Some y.
Proof.
  destruct s as [|a s]; simpl; [discriminate|].
  destruct (p a) eqn:Ha; [|discriminate]. intros H. now exists a, s.
Qed.

Lemma exec_EndText_inv (k : cont) (pos : nat) (s : string) (c : caps) (y : result) :
  exec EndText k pos s c = Some y -> s = "" /\ k pos "" c = Some y.
Proof. destruct s; simpl; [auto|discriminate]. Qed.

Lemma exec_Quest_inv (r : regex) (k : cont) (pos : nat) (s : string) (c : caps) (y : result) :
  exec (Quest r) k pos s c = Some y ->
  exec r k pos s c = Some y \/ k pos s c = Some y.
Proof. rewrite exec_Quest. intros H. apply orElse_Some in H. tauto. Qed.

Lemma greedy_inv (p : ascii -> bool) (k : cont) (pos : nat) (s : string) (c : caps)
  (y : result) :
  greedy p k pos s c = Some y ->
  exists pre suf, s = pre ++ suf /\ pre <> "" /\ allb p pre = true /\
                  k (pos + String.length pre) suf c = Some y.
Proof.
  revert pos. induction s as [|a s IH]; intros pos; simpl; [discriminate|].
  destruct (p a) eqn:Ha; [|discriminate]. intros H.
  apply orElse_Some in H as [H|[_ H]].
  - apply IH in H as (pre & suf & -> & Hne & Hpre & H).
    exists (String a pre), suf. repeat split; try discriminate.
    + now rewrite allb_cons, Ha, Hpre.
    + simpl. now rewrite Nat.add_succ_r.
  - exists (String a ""), s. repeat split; try discriminate.
    + now rewrite allb_cons, Ha.
    + simpl. now rewrite Nat.add_1_r.
Qed.

Lemma exec_Plus_Class_inv (p : ascii -> bool) (k : cont) (pos : nat) (s : string)
  (c : caps) (y : result) :
  exec (Plus (Class p)) k pos s c = Some y ->
  exists pre suf, s = pre ++ suf /\ pre <> "" /\ allb p pre = true /\
                  k (pos + String.length pre) suf c = Some y.
Proof. rewrite exec_Plus_Class. apply greedy_inv. Qed.

Lemma exec_Repeat_Class_inv (n : nat) (p : ascii -> bool) (k : cont) (pos : nat)
  (s : string) (c : caps) (y : result) :
  exec (Repeat n (Class p)) k pos s c = Some y ->
  exists pre suf, s = pre ++ suf /\ String.length pre = n /\ allb p pre = true /\
                  k (pos + n) suf c = Some y.
Proof.
  revert pos s. induction n as [|n IH]; intros pos s H.
  - exists "", s. simpl in *. rewrite Nat.add_0_r. auto.
  - rewrite exec_Repeat_S in H.
    apply exec_Class_inv in H as (a & s' & -> & Ha & H).
    apply IH in H as (pre & suf & -> & Hlen & Hpre & H).
    exists (String a pre), suf. simpl. rewrite allb_cons, Ha, Hpre, Hlen.
    rewrite Nat.add_succ_r. auto.
Qed.

(** *** Patterns anchored by [\A] *)

Lemma search_anchored_later (r : regex) (pos : nat) (s : string) :
  search (Cat BeginText r) (S pos) s = None.
Proof. revert pos. induction s as [|a s IH]; intros pos; simpl; auto. Qed.

Lemma search_anchored (r : regex) (s : string) :
  search (Cat BeginText r) 0 s =
  match exec r accept 0 s [] with
  | Some (e, rest, c) => Some (0, e, rest, c)
  | None => None
  end.
Proof.
  destruct s as [|a s]; simpl.
  - destruct (exec r accept 0 "" []) as [[[e rest] c]|]; reflexivity.
  - destruct (exec r accept 0 (String a s) []) as [[[e rest] c]|]; [reflexivity|].
    apply search_anchored_later.
Qed.

Lemma MatchString_anchored (r : regex) (s : string) :
  MatchString (Cat BeginText r) s =
  match exec r accept 0 s [] with Some _ => true | None => false end.
Proof.
  unfold MatchString. rewrite search_anchored.
  destruct (exec r accept 0 s []) as [[[e rest] c]|]; reflexivity.
Qed.

Lemma FindAll_anchored_none (r : regex) (s : string) :
  exec r accept 0 s [] = None -> FindAllStringSubmatch (Cat BeginText r) s = [].
Proof.
  intros H. unfold FindAllStringSubmatch.
  cbn [allMatches]. now rewrite search_anchored, H.
Qed.

Lemma FindAll_anchored (r : regex) (s : string) (e : nat) (rest : string) (c : caps) :
  exec r accept 0 s [] = Some (e, rest, c) -> e <> 0 ->
  FindAllStringSubmatch (Cat BeginText r) s =
  [substring 0 e s :: map (group c) (seq 1 (NumSubexp r))].
Proof.
  intros H He. unfold FindAllStringSubmatch.
  cbn [allMatches]. rewrite search_anchored, H.
  apply Nat.eqb_neq in He. rewrite He.
  cbn [submatches NumSubexp Nat.max]. rewrite !Nat.sub_0_r. f_equal.
  destruct (String.length s) as [|n]; [reflexivity|].
  cbn [allMatches]. destruct e as [|e]; [discriminate|].
  now rewrite search_anchored_later.
Qed.

(** A pattern [\A r] whose [r] takes the whole of a non-empty text matches
    it once, with the groups [r] sets. *)
Lemma anchored_takes (r : regex) (s : string) (u : caps -> caps) :
  takes r s "" u -> s <> "" ->
  MatchString (Cat BeginText r) s = true /\
  FindAllStringSubmatch (Cat BeginText r) s =
  [s :: map (group (u [])) (seq 1 (NumSubexp r))].
Proof.
  intros Hr Hne. apply takes_accept in Hr. split.
  - now rewrite MatchString_anchored, Hr.
  - rewrite (FindAll_anchored _ _ _ _ _ Hr).
    + now rewrite substring_0_all.
    + destruct s; [congruence|discriminate].
Qed.

(** Every match [FindAllStringSubmatch] returns has an entry for the whole
    match and one for each group, so indexing it by a group number is in
    range. *)
Lemma allMatches_length (re : regex) (fuel pos : nat) (s : string) (prev : option nat) :
  Forall (fun m => List.length m = S (NumSubexp re)) (allMatches re fuel pos s prev).
Proof.
  revert pos s prev. induction fuel as [|fuel IH]; intros pos s prev; simpl; [constructor|].
  destruct (search re pos s) as [[[[b e] rest] c]|]; [|constructor].
  assert (Hm : List.length (submatches re pos s (b, e, rest, c)) = S (NumSubexp re)).
  { simpl. now rewrite length_map, length_seq. }
  destruct (e =? pos).
  - assert (Ht : Forall (fun m => List.length m = S (NumSubexp re))
                   match prev with
                   | Some p => if b =? p then [] else [submatches re pos s (b, e, rest, c)]
                   | None => [submatches re pos s (b, e, rest, c)]
                   end).
    { destruct prev as [p|]; [destruct (b =? p)|]; repeat constructor; exact Hm. }
    destruct s; [exact Ht|]. apply Forall_app. split; [exact Ht|apply IH].
  - constructor; [exact Hm|apply IH].
Qed.

End RegexpFacts.

(** ** Version strings *)

Section Versions.

Lemma isNumber_spec (s : string) :
  isNumber s = true -> s <> "" /\ allb isDigit s = true.
Proof.
  unfold isNumber. rewrite andb_true_iff, negb_true_iff. intros [H1 H2].
  split; [|assumption]. now apply String.eqb_neq.
Qed.

Lemma takes_number (d rest : string) :
  isNumber d = true -> startsOutside isDigit rest = true ->
  takes (Plus (Class isDigit)) d rest keep.
Proof. intros Hd Hr. apply isNumber_spec in Hd as [Hne Hd]. now apply takes_Plus_Class. Qed.

Lemma takes_Repeat_Class_n (n : nat) (p : ascii -> bool) (x rest : string) :
  String.length x = n -> allb p x = true -> takes (Repeat n (Class p)) x rest keep.
Proof. intros <-. apply takes_Repeat_Class. Qed.

Lemma fails_Plus_Class_Cat (p : ascii -> bool) (r : regex) (x rest : string) :
  allb p x = true -> startsOutside p rest = true ->
  (forall pre suf, x = pre ++ suf -> fails r (suf ++ rest)) ->
  fails (Cat (Plus (Class p)) r) (x ++ rest).
Proof.
  intros Hx Hr H k pos c. rewrite exec_Cat, exec_Plus_Class.
  apply greedy_none; auto. intros pre suf E _. now apply (H pre suf E).
Qed.

Lemma digit_not_dot (a : ascii) : isDigit a = true -> Ascii.eqb "." a = false.
Proof. intros H. destruct (Ascii.eqb_spec "." a) as [<-|]; [discriminate|reflexivity]. Qed.

(** [\d+\.] finds no dot in or right after a run of digits that a hyphen ends. *)
Lemma fails_counter (ts rest : string) :
  allb isDigit ts = true ->
  fails (Cat (Plus (Class isDigit)) (Lit ".")) (ts ++ "-" ++ rest).
Proof.
  intros Hts. apply fails_Plus_Class_Cat; [assumption|reflexivity|].
  intros pre suf -> . apply fails_Lit.
  rewrite allb_append in Hts. apply andb_true_iff in Hts as [_ Hs].
  destruct suf as [|a suf]; [reflexivity|].
  rewrite allb_cons in Hs. apply andb_true_iff in Hs as [Ha _].
  cbn [stripPrefix append]. now rewrite digit_not_dot.
Qed.

Lemma isCore_spec (major minor patch : string) :
  isCore major minor patch = true ->
  isNumber major = true /\ isNumber minor = true /\ isNumber patch = true.
Proof. unfold isCore. rewrite !andb_true_iff. tauto. Qed.

(** On a pseudo-version whose commit has 8 or more characters, [tagRx]
    matches once and its group is the first 7 of them. *)
Lemma tagRx_pseudoVersion (major minor patch : string) (n : option string)
  (timestamp commit : string) :
  isPseudoVersion 8 major minor patch n timestamp commit = true ->
  let v := pseudoVersionText major minor patch n timestamp commit in
  MatchString tagRx v = true /\
  FindAllStringSubmatch tagRx v = [[v; substring 0 7 commit]].
Proof.
  intros H v. unfold isPseudoVersion in H. rewrite !andb_true_iff in H.
  destruct H as [[[[[Hcore Hn] Hlen] Hts] Hhex] Hc].
  apply isCore_spec in Hcore as (Hmaj & Hmin & Hpat).
  apply Nat.eqb_eq in Hlen. apply Nat.leb_le in Hhex.
  assert (E : commit = substring 0 7 commit ++
                       substring 7 (String.length commit - 7) commit)
    by (apply substring_split; lia).
  set (h7 := substring 0 7 commit) in *.
  set (hr := substring 7 (String.length commit - 7) commit) in *.
  assert (Hh7 : String.length h7 = 7) by (apply substring_0_length; lia).
  assert (Hhr : hr <> "").
  { intros Hr. apply (f_equal String.length) in E.
    rewrite length_append, Hh7, Hr in E. simpl in E. lia. }
  rewrite E, allb_append in Hc. apply andb_true_iff in Hc as [Hc7 Hcr].
  assert (T : exists u, takes
    (Lit "v" ;; Plus (Class isDigit) ;; Lit "." ;; Plus (Class isDigit) ;; Lit "." ;;
     Plus (Class isDigit) ;; Lit "-" ;;
     Quest (Plus (Class isDigit) ;; Lit ".") ;;
     Repeat 14 (Class isDigit) ;; Lit "-" ;;
     Capture 1 (Repeat 7 (Class isLowerHex)) ;;
     Plus (Class isLowerHex) ;; EndText)%re
    ("v" ++ major ++ "." ++ minor ++ "." ++ patch ++ "-" ++ counterText n ++
     timestamp ++ "-" ++ h7 ++ hr ++ "") "" u /\ u [] = [(1, h7)]).
  { eexists. split.
    - eapply (takes_Cat _ _ "v"); [apply takes_Lit|].
      eapply takes_Cat; [now apply takes_number|].
      eapply (takes_Cat _ _ "."); [apply takes_Lit|].
      eapply takes_Cat; [now apply takes_number|].
      eapply (takes_Cat _ _ "."); [apply takes_Lit|].
      eapply takes_Cat; [now apply takes_number|].
      eapply (takes_Cat _ _ "-"); [apply takes_Lit|].
      eapply (takes_Cat _ _ (counterText n)).
      { destruct n as [d|]; simpl.
        - apply takes_Quest. eapply (takes_Cat _ _ d "." _ keep keep);
            [now apply takes_number|apply takes_Lit].
        - apply takes_Quest_skip. rewrite append_nil_r. now apply fails_counter. }
      eapply takes_Cat; [now apply takes_Repeat_Class_n|].
      eapply (takes_Cat _ _ "-"); [apply takes_Lit|].
      eapply takes_Cat; [apply takes_Capture; now apply takes_Repeat_Class_n|].
      eapply takes_Cat; [apply takes_Plus_Class; auto|apply takes_EndText].
    - reflexivity. }
  assert (Ev : v = "v" ++ major ++ "." ++ minor ++ "." ++ patch ++ "-" ++ counterText n ++
                   timestamp ++ "-" ++ h7 ++ hr ++ "").
  { subst v. unfold pseudoVersionText, coreText.
    rewrite append_nil_r, <- E, !append_assoc. reflexivity. }
  destruct T as (u & T & Hu). rewrite <- Ev in T. apply anchored_takes in T.
  - rewrite Hu in T. exact T.
  - rewrite Ev. discriminate.
Qed.

Lemma number_of (s : string) : s <> "" -> allb isDigit s = true -> isNumber s = true.
Proof.
  intros Hne Hs. unfold isNumber. rewrite Hs, andb_true_r.
  apply negb_true_iff. now apply String.eqb_neq.
Qed.

(** What follows the optional counter in [tagRx]: timestamp, hyphen, commit. *)
Lemma tagRx_tail_inv (pos : nat) (s : string) (c : caps) (y : result) :
  exec (Repeat 14 (Class isDigit) ;; Lit "-" ;;
        Capture 1 (Repeat 7 (Class isLowerHex)) ;;
        Plus (Class isLowerHex) ;; EndText)%re accept pos s c = Some y ->
  exists timestamp commit,
    s = timestamp ++ "-" ++ commit /\
    String.length timestamp = 14 /\ allb isDigit timestamp = true /\
    8 <= String.length commit /\ allb isLowerHex commit = true.
Proof.
  intros H.
  rewrite exec_Cat in H.
  apply exec_Repeat_Class_inv in H as (ts & s1 & -> & Hlen & Hts & H).
  rewrite exec_Cat in H. apply exec_Lit_inv in H as (s2 & -> & H).
  rewrite exec_Cat, exec_Capture in H.
  apply exec_Repeat_Class_inv in H as (h7 & s3 & -> & Hlen7 & Hh7 & H).
  rewrite exec_Cat in H.
  apply exec_Plus_Class_inv in H as (hr & s4 & -> & Hne & Hhr & H).
  apply exec_EndText_inv in H as [-> _].
  exists ts, (h7 ++ hr). rewrite append_nil_r.
  repeat split; auto.
  - rewrite length_append, Hlen7. destruct hr; [congruence|simpl; lia].
  - now rewrite allb_append, Hh7, Hhr.
Qed.

(** [tagRx] matches pseudo-versions with a commit of 8 or more characters
    only. *)
Lemma tagRx_sound (version : string) :
  MatchString tagRx version = true -> pseudoVersion 8 version.
Proof.
  unfold tagRx. rewrite MatchString_anchored.
  destruct (exec _ accept 0 version []) as [y|] eqn:H; [intros _|discriminate].
  rewrite exec_Cat in H. apply exec_Lit_inv in H as (s1 & -> & H).
  rewrite exec_Cat in H.
  apply exec_Plus_Class_inv in H as (major & s2 & -> & Hne1 & Hmaj & H).
  rewrite exec_Cat in H. apply exec_Lit_inv in H as (s3 & -> & H).
  rewrite exec_Cat in H.
  apply exec_Plus_Class_inv in H as (minor & s4 & -> & Hne2 & Hmin & H).
  rewrite exec_Cat in H. apply exec_Lit_inv in H as (s5 & -> & H).
  rewrite exec_Cat in H.
  apply exec_Plus_Class_inv in H as (patch & s6 & -> & Hne3 & Hpat & H).
  rewrite exec_Cat in H. apply exec_Lit_inv in H as (s7 & -> & H).
  rewrite exec_Cat in H.
  assert (Hcore : isCore major minor patch = true).
  { unfold isCore. now rewrite !number_of. }
  apply exec_Quest_inv in H as [H|H].
  - rewrite exec_Cat in H.
    apply exec_Plus_Class_inv in H as (d & s8 & -> & Hne4 & Hd & H).
    apply exec_Lit_inv in H as (s9 & -> & H).
    apply tagRx_tail_inv in H as (ts & commit & -> & Hlen & Hts & Hc & Hhex).
    exists major, minor, patch, (Some d), ts, commit. split.
    + apply Nat.leb_le in Hc. unfold isPseudoVersion, isCounter.
      rewrite Hcore, Hlen, Hts, Hhex, Hc, number_of by assumption. reflexivity.
    + unfold pseudoVersionText, coreText, counterText.
      now rewrite !append_assoc.
  - apply tagRx_tail_inv in H as (ts & commit & -> & Hlen & Hts & Hc & Hhex).
    exists major, minor, patch, None, ts, commit. split.
    + apply Nat.leb_le in Hc. unfold isPseudoVersion, isCounter.
      rewrite Hcore, Hlen, Hts, Hhex, Hc. reflexivity.
    + unfold pseudoVersionText, coreText, counterText.
      now rewrite !append_assoc.
Qed.

Lemma tagRx_complete (version : string) :
  pseudoVersion 8 version -> MatchString tagRx version = true.
Proof.
  intros (major & minor & patch & n & ts & commit & H & ->).
  now apply tagRx_pseudoVersion in H as [H _].
Qed.

(** On a pseudo-version the tag is the first 7 characters of the commit. *)
Lemma parseVersion_pseudoVersion (major minor patch : string) (n : option string)
  (timestamp commit : string) :
  isPseudoVersion 8 major minor patch n timestamp commit = true ->
  parseVersion (pseudoVersionText major minor patch n timestamp commit) =
  Some (substring 0 7 commit).
Proof.
  intros H. apply tagRx_pseudoVersion in H as [Hm Hf].
  unfold parseVersion. now rewrite Hm, Hf.
Qed.

Lemma string_snoc (s : string) :
  s <> "" -> exists init last, s = init ++ String last "".
Proof.
  induction s as [|a s IH]; [congruence|]. intros _.
  destruct s as [|b s].
  - now exists "", a.
  - destruct IH as (init & last & E); [discriminate|].
    exists (String a init), last. simpl. now rewrite <- E.
Qed.

Lemma startsOutside_weaken (p q : ascii -> bool) (s : string) :
  (forall a, p a = true -> q a = true) ->
  startsOutside q s = true -> startsOutside p s = true.
Proof.
  intros Hpq. destruct s as [|a s]; simpl; [reflexivity|].
  rewrite !negb_true_iff. intros Hq. destruct (p a) eqn:Hp; [|reflexivity].
  apply Hpq in Hp. congruence.
Qed.

Lemma greedy_outside (p : ascii -> bool) (k : cont) (pos : nat) (s : string) (c : caps) :
  startsOutside p s = true -> greedy p k pos s c = None.
Proof.
  destruct s as [|a s]; simpl; [reflexivity|].
  rewrite negb_true_iff. now intros ->.
Qed.

(** A greedy run gives back its last character when the continuation
    cannot go on from the end of the run. *)
Lemma greedy_backoff (p : ascii -> bool) (k : cont) (x : string) (b : ascii)
  (rest : string) (pos : nat) (c : caps) (y : result) :
  allb p x = true -> x <> "" -> p b = true -> startsOutside p rest = true ->
  k (pos + S (String.length x)) rest c = None ->
  k (pos + String.length x) (String b rest) c = Some y ->
  greedy p k pos (x ++ String b rest) c = Some y.
Proof.
  revert pos. induction x as [|a x IH]; intros pos Hx Hne Hb Hrest Hnone Hsome;
    [congruence|].
  rewrite allb_cons in Hx. apply andb_true_iff in Hx as [Ha Hx].
  simpl. rewrite Ha. destruct x as [|a' x].
  - simpl in *. rewrite Hb, greedy_outside by assumption.
    replace (pos + 2) with (S (S pos)) in Hnone by lia.
    replace (pos + 1) with (S pos) in Hsome by lia.
    now rewrite Hnone, Hsome.
  - rewrite (IH (S pos)); auto; try discriminate.
    + rewrite <- Hnone. f_equal. simpl. lia.
    + rewrite <- Hsome. f_equal. simpl. lia.
Qed.

Lemma isAlnum_isAlnumDotHyphen (a : ascii) :
  isAlnum a = true -> isAlnumDotHyphen a = true.
Proof. unfold isAlnumDotHyphen. now intros ->. Qed.

(** [[0-9A-Za-z]+[0-9A-Za-z\.-]+] takes a whole prerelease of two or more
    characters. *)
Lemma takes_prerelease (a : ascii) (s rest : string) :
  isAlnum a = true -> allb isAlnumDotHyphen s = true -> s <> "" ->
  startsOutside isAlnumDotHyphen rest = true ->
  takes (Cat (Plus (Class isAlnum)) (Plus (Class isAlnumDotHyphen)))
        (String a s) rest keep.
Proof.
  intros Ha Hs Hne Hrest k pos c y H. unfold keep in H.
  rewrite exec_Cat, exec_Plus_Class.
  destruct (span_spec isAlnum s) as (E & Hrun & Hout).
  destruct (span isAlnum s) as [run tail]. simpl in E, Hrun, Hout.
  assert (Hrest' : startsOutside isAlnum rest = true)
    by (apply (startsOutside_weaken isAlnum isAlnumDotHyphen);
        [apply isAlnum_isAlnumDotHyphen|assumption]).
  destruct tail as [|b tail].
  - rewrite append_nil_r in E. subst run.
    destruct (string_snoc s Hne) as (init & last & ->).
    rewrite allb_append, allb_cons in Hrun.
    apply andb_true_iff in Hrun as [Hinit Hlast].
    apply andb_true_iff in Hlast as [Hlast _].
    change (String a (init ++ String last "") ++ rest)
      with (String a ((init ++ String last "") ++ rest)).
    rewrite append_assoc.
    change (String a (init ++ String last "" ++ rest))
      with (String a init ++ String last rest).
    apply greedy_backoff; auto.
    + now rewrite allb_cons, Ha, Hinit.
    + discriminate.
    + rewrite exec_Plus_Class. now apply greedy_outside.
    + rewrite exec_Plus_Class.
      apply (greedy_run _ _ (String last "") rest).
      * rewrite allb_cons, isAlnum_isAlnumDotHyphen by assumption. reflexivity.
      * discriminate.
      * assumption.
      * rewrite <- H. f_equal. simpl. rewrite length_append. simpl. lia.
  - subst s. rewrite allb_append in Hs. apply andb_true_iff in Hs as [_ Htail].
    change (String a (run ++ String b tail) ++ rest)
      with (String a ((run ++ String b tail) ++ rest)).
    rewrite append_assoc.
    change (String a (run ++ String b tail ++ rest))
      with (String a run ++ (String b tail ++ rest)).
    apply greedy_run.
    + now rewrite allb_cons, Ha, Hrun.
    + discriminate.
    + exact Hout.
    + rewrite exec_Plus_Class. apply greedy_run; auto; [discriminate|].
      rewrite <- H. f_equal. simpl. rewrite length_append. simpl. lia.
Qed.

(** On a semantic version whose prerelease, if any, has two or more
    characters, [versionRx] matches once and its group is the version
    without [+incompatible]. *)
Lemma versionRx_semver (major minor patch : string) (pre : option string)
  (incompatible : bool) :
  isCore major minor patch = true -> isPrerelease 2 pre = true ->
  let v := semverText major minor patch pre incompatible in
  MatchString versionRx v = true /\
  FindAllStringSubmatch versionRx v = [[v; semverText major minor patch pre false]].
Proof.
  intros Hcore Hpre v.
  apply isCore_spec in Hcore as (Hmaj & Hmin & Hpat).
  set (x := "v" ++ major ++ "." ++ minor ++ "." ++ patch ++ prereleaseText pre).
  assert (Ex : semverText major minor patch pre false = x).
  { unfold semverText, coreText, incompatibleText, x.
    now rewrite append_nil_r, !append_assoc. }
  assert (Ev : v = x ++ incompatibleText incompatible ++ "").
  { rewrite <- Ex. unfold v, semverText. cbn [incompatibleText].
    now rewrite !append_nil_r, !append_assoc. }
  assert (T : exists u, takes
    (Capture 1
       (Lit "v" ;; Plus (Class isDigit) ;; Lit "." ;; Plus (Class isDigit) ;; Lit "." ;;
        Plus (Class isDigit) ;;
        Quest (Lit "-" ;; Plus (Class isAlnum) ;; Plus (Class isAlnumDotHyphen))) ;;
     Quest (Lit "+incompatible") ;; EndText)%re
    (x ++ incompatibleText incompatible ++ "") "" u /\ u [] = [(1, x)]).
  { eexists. split.
    - eapply takes_Cat.
      + apply takes_Capture. unfold x.
        eapply (takes_Cat _ _ "v"); [apply takes_Lit|].
        eapply takes_Cat; [now apply takes_number|].
        eapply (takes_Cat _ _ "."); [apply takes_Lit|].
        eapply takes_Cat; [now apply takes_number|].
        eapply (takes_Cat _ _ "."); [apply takes_Lit|].
        eapply takes_Cat.
        * apply takes_number; [assumption|].
          destruct pre as [[|a s]|], incompatible; reflexivity.
        * destruct pre as [[|a s]|]; [discriminate| |].
          -- cbn [isPrerelease] in Hpre. rewrite !andb_true_iff in Hpre.
             destruct Hpre as [[Ha Hs] Hlen]. apply Nat.leb_le in Hlen.
             apply takes_Quest.
             eapply (takes_Cat _ _ "-" (String a s) _ keep keep); [apply takes_Lit|].
             apply takes_prerelease; auto.
             ++ destruct s; [simpl in Hlen; lia|discriminate].
             ++ destruct incompatible; reflexivity.
          -- apply takes_Quest_skip, fails_Cat, fails_Lit.
             destruct incompatible; reflexivity.
      + eapply takes_Cat; [|apply takes_EndText].
        destruct incompatible.
        * apply takes_Quest, takes_Lit.
        * apply takes_Quest_skip, fails_Lit. reflexivity.
    - reflexivity. }
  destruct T as (u & T & Hu). rewrite <- Ev in T. apply anchored_takes in T.
  - unfold versionRx. rewrite Ex. cbn [NumSubexp Nat.max seq map] in T.
    rewrite Hu in T. exact T.
  - rewrite Ev. unfold x. discriminate.
Qed.

(** On such a semantic version that is not a pseudo-version as well, the
    tag is the version without [+incompatible]. *)
Lemma parseVersion_semver (major minor patch : string) (pre : option string)
  (incompatible : bool) :
  isCore major minor patch = true -> isPrerelease 2 pre = true ->
  ~ pseudoVersion 8 (semverText major minor patch pre incompatible) ->
  parseVersion (semverText major minor patch pre incompatible) =
  Some (semverText major minor patch pre false).
Proof.
  intros Hcore Hpre Hnot.
  destruct (versionRx_semver major minor patch pre incompatible Hcore Hpre) as [Hm Hf].
  unfold parseVersion.
  destruct (MatchString tagRx _) eqn:Ht.
  - exfalso. now apply Hnot, tagRx_sound.
  - now rewrite Hm, Hf.
Qed.

End Versions.

(** ** [ParsePackage] on plain specs *)

Section PlainSpecs.

Lemma ParsePackageAt_plain (fuel : nat) (spec name version : string) :
  plainSpec spec name version ->
  ParsePackageAt fuel spec =
  match parseName name with
  | inl err => Some (Err err)
  | inr (account, project) =>
      match parseVersion version with
      | Some tag => Some (Ok (mkPackage name account project tag))
      | None => Some (Err (UnexpectedVersion version))
      end
  end.
Proof.
  intros [Hc Hf]. destruct fuel; cbn [ParsePackageAt]; now rewrite Hc, Hf.
Qed.

Lemma ParsePackage_plain (spec name version : string) :
  plainSpec spec name version ->
  ParsePackage spec =
  match parseName name with
  | inl err => Some (Err err)
  | inr (account, project) =>
      match parseVersion version with
      | Some tag => Some (Ok (mkPackage name account project tag))
      | None => Some (Err (UnexpectedVersion version))
      end
  end.
Proof. apply ParsePackageAt_plain. Qed.

(** C1, as the code has it: for every plain spec whose name is not a
    malformed Github name and whose version is a pseudo-version
    [v<major>.<minor>.<patch>-[<N>.]<14-digit-timestamp>-<hex-commit>] with
    a commit of 8 or more lowercase hexadecimal characters, [ParsePackage]
    succeeds and the tag is the first 7 characters of the commit. *)
Theorem pseudo_version_tag (spec name major minor patch : string) (n : option string)
  (timestamp commit account project : string) :
  plainSpec spec name (pseudoVersionText major minor patch n timestamp commit) ->
  isPseudoVersion 8 major minor patch n timestamp commit = true ->
  parseName name = inr (account, project) ->
  ParsePackage spec =
  Some (Ok (mkPackage name account project (substring 0 7 commit))).
Proof.
  intros Hspec Hv Hname.
  rewrite (ParsePackage_plain _ _ _ Hspec), Hname.
  now rewrite parseVersion_pseudoVersion.
Qed.

Lemma pseudo_version_tag_witness :
  plainSpec "github.com/foo/bar v1.2.3-3.20181001143604-e0a95dfd547c"
            "github.com/foo/bar"
            (pseudoVersionText "1" "2" "3" (Some "3") "20181001143604" "e0a95dfd547c") /\
  ParsePackage "github.com/foo/bar v1.2.3-3.20181001143604-e0a95dfd547c" =
  Some (Ok (mkPackage "github.com/foo/bar" "foo" "bar" "e0a95df")).
Proof.
  split.
  - split; reflexivity.
  - apply (pseudo_version_tag _ "github.com/foo/bar" "1" "2" "3" (Some "3")
             "20181001143604" "e0a95dfd547c" "foo" "bar").
    + split; reflexivity.
    + reflexivity.
    + reflexivity.
Defined.

(** C1 as stated fails on a commit of exactly 7 characters: [tagRx] wants
    an eighth, the version is then read as a semantic version with a
    prerelease, and the tag is the whole version string; and no version
    makes [ParsePackage] succeed on a malformed Github name. *)
Lemma pseudo_version_tag_counterexample :
  (plainSpec "x v0.0.0-20181001143604-e0a95df" "x"
             (pseudoVersionText "0" "0" "0" None "20181001143604" "e0a95df") /\
   isPseudoVersion 7 "0" "0" "0" None "20181001143604" "e0a95df" = true /\
   ParsePackage "x v0.0.0-20181001143604-e0a95df" =
   Some (Ok (mkPackage "x" "" "" "v0.0.0-20181001143604-e0a95df")) /\
   "v0.0.0-20181001143604-e0a95df" <> substring 0 7 "e0a95df") /\
  (plainSpec "github.com v0.0.0-20181001143604-e0a95dfd547c" "github.com"
             (pseudoVersionText "0" "0" "0" None "20181001143604" "e0a95dfd547c") /\
   isPseudoVersion 7 "0" "0" "0" None "20181001143604" "e0a95dfd547c" = true /\
   ParsePackage "github.com v0.0.0-20181001143604-e0a95dfd547c" =
   Some (Err (UnexpectedGithubName "github.com"))).
Proof.
  repeat split; try reflexivity. discriminate.
Qed.

(** C2, as the code has it: for every plain spec whose name is not a
    malformed Github name and whose version is
    [v<major>.<minor>.<patch>[-<prerelease>][+incompatible]], the prerelease
    an alphanumeric followed by one or more alphanumerics, dots or hyphens,
    and is not a pseudo-version as well, [ParsePackage] succeeds and the tag
    is the version with [+incompatible] removed and the prerelease kept. *)
Theorem semver_tag (spec name major minor patch : string) (pre : option string)
  (incompatible : bool) (account project : string) :
  plainSpec spec name (semverText major minor patch pre incompatible) ->
  isCore major minor patch = true ->
  isPrerelease 2 pre = true ->
  ~ pseudoVersion 8 (semverText major minor patch pre incompatible) ->
  parseName name = inr (account, project) ->
  ParsePackage spec =
  Some (Ok (mkPackage name account project (semverText major minor patch pre false))).
Proof.
  intros Hspec Hcore Hpre Hnot Hname.
  rewrite (ParsePackage_plain _ _ _ Hspec), Hname.
  now rewrite parseVersion_semver.
Qed.

Lemma not_pseudoVersion (version : string) :
  MatchString tagRx version = false -> ~ pseudoVersion 8 version.
Proof. intros H Hp. apply tagRx_complete in Hp. congruence. Qed.

Lemma semver_tag_witness :
  ParsePackage "x v1.2.3+incompatible" = Some (Ok (mkPackage "x" "" "" "v1.2.3")) /\
  ParsePackage "x v1.2.3-rc.1+incompatible" =
  Some (Ok (mkPackage "x" "" "" "v1.2.3-rc.1")).
Proof.
  split.
  - apply (semver_tag _ "x" "1" "2" "3" None true "" "").
    + split; reflexivity.
    + reflexivity.
    + reflexivity.
    + apply not_pseudoVersion. reflexivity.
    + reflexivity.
  - apply (semver_tag _ "x" "1" "2" "3" (Some "rc.1") true "" "").
    + split; reflexivity.
    + reflexivity.
    + reflexivity.
    + apply not_pseudoVersion. reflexivity.
    + reflexivity.
Defined.

(** C2 as stated fails on a prerelease of a single character, which
    [versionRx] does not match; on a version that is a pseudo-version as
    well, whose tag is the abbreviated commit; and on a malformed Github
    name. *)
Lemma semver_tag_counterexample :
  (plainSpec "x v1.2.3-a" "x" (semverText "1" "2" "3" (Some "a") false) /\
   isCore "1" "2" "3" = true /\ isPrerelease 1 (Some "a") = true /\
   ParsePackage "x v1.2.3-a" = Some (Err (UnexpectedVersion "v1.2.3-a"))) /\
  (plainSpec "x v1.2.3-20181001143604-e0a95dfd547c" "x"
             (semverText "1" "2" "3" (Some "20181001143604-e0a95dfd547c") false) /\
   isPrerelease 1 (Some "20181001143604-e0a95dfd547c") = true /\
   ParsePackage "x v1.2.3-20181001143604-e0a95dfd547c" =
   Some (Ok (mkPackage "x" "" "" "e0a95df"))) /\
  (plainSpec "github.com v1.2.3" "github.com" (semverText "1" "2" "3" None false) /\
   ParsePackage "github.com v1.2.3" = Some (Err (UnexpectedGithubName "github.com"))).
Proof.
  repeat split; reflexivity.
Qed.

(** *** Github names *)

Lemma HasPrefix_append (s p : string) :
  HasPrefix s p = true -> exists rest, s = p ++ rest.
Proof.
  rewrite stripPrefix_HasPrefix.
  destruct (stripPrefix p s) as [rest|] eqn:E; [intros _|discriminate].
  exists rest. now apply stripPrefix_Some.
Qed.

Lemma HasPrefix_prefix (p rest : string) : HasPrefix (p ++ rest) p = true.
Proof. now rewrite stripPrefix_HasPrefix, stripPrefix_append. Qed.

(** No key of the table starts with [github.com]. *)
Lemma lookup_github (name : string) :
  HasPrefix name "github.com" = true -> lookup wellKnownPackages name = None.
Proof. intros H. apply HasPrefix_append in H as [rest ->]. reflexivity. Qed.

Lemma parseName_github (name : string) :
  HasPrefix name "github.com" = true ->
  parseName name =
  match Split name "/" with
  | _ :: account :: project :: _ => inr (account, project)
  | _ => inl (UnexpectedGithubName name)
  end.
Proof. intros H. unfold parseName. now rewrite lookup_github, H. Qed.

(** C4: for a plain spec whose name starts with [github.com] (no such name
    is in the table): with 3 or more segments between slashes the account
    is the 2nd and the project the 3rd, whatever follows, so that
    [ParsePackage] succeeds with them as soon as the version has a tag and
    succeeds with nothing else; with fewer segments [ParsePackage] returns
    the error of a malformed Github name, not an unresolved package. *)
Theorem github_segments (spec name version : string) :
  plainSpec spec name version ->
  HasPrefix name "github.com" = true ->
  (3 <= List.length (Split name "/") ->
   (forall tag, parseVersion version = Some tag ->
      ParsePackage spec =
      Some (Ok (mkPackage name (nth 1 (Split name "/") "") (nth 2 (Split name "/") "") tag))) /\
   (forall p, ParsePackage spec = Some (Ok p) ->
      Account p = nth 1 (Split name "/") "" /\ Project p = nth 2 (Split name "/") "")) /\
  (List.length (Split name "/") < 3 ->
   ParsePackage spec = Some (Err (UnexpectedGithubName name))).
Proof.
  intros Hspec Hpre.
  rewrite (ParsePackage_plain _ _ _ Hspec), (parseName_github _ Hpre).
  destruct (Split name "/") as [|s0 [|s1 [|s2 l]]]; simpl; split; try lia; intros _;
    try reflexivity.
  split.
  - now intros tag ->.
  - intros p. destruct (parseVersion version); [|discriminate].
    intros [= <-]. now split.
Qed.

Lemma github_segments_witness :
  ParsePackage "github.com/foo/bar/baz v1.0.0" =
  Some (Ok (mkPackage "github.com/foo/bar/baz" "foo" "bar" "v1.0.0")) /\
  ParsePackage "github.com/foo v1.0.0" =
  Some (Err (UnexpectedGithubName "github.com/foo")).
Proof.
  split.
  - destruct (github_segments "github.com/foo/bar/baz v1.0.0"
                "github.com/foo/bar/baz" "v1.0.0") as [H _].
    + split; reflexivity.
    + reflexivity.
    + destruct H as [H _]; [simpl; lia|]. apply H. reflexivity.
  - destruct (github_segments "github.com/foo v1.0.0" "github.com/foo" "v1.0.0")
      as [_ H].
    + split; reflexivity.
    + reflexivity.
    + apply H. simpl. lia.
Defined.

(** C10: the Github rule is chosen by the characters [github.com] alone,
    whatever follows them: such a name has its 2nd and 3rd segments for
    account and project, and with fewer than 3 segments [ParsePackage]
    returns the error of a malformed Github name. *)
Theorem github_prefix_without_slash (spec rest version : string) :
  plainSpec spec ("github.com" ++ rest) version ->
  match Split ("github.com" ++ rest) "/" with
  | _ :: account :: project :: _ =>
      parseName ("github.com" ++ rest) = inr (account, project) /\
      forall tag, parseVersion version = Some tag ->
        ParsePackage spec = Some (Ok (mkPackage ("github.com" ++ rest) account project tag))
  | _ => ParsePackage spec = Some (Err (UnexpectedGithubName ("github.com" ++ rest)))
  end.
Proof.
  intros Hspec.
  assert (Hpre : HasPrefix ("github.com" ++ rest) "github.com" = true)
    by apply HasPrefix_prefix.
  rewrite (ParsePackage_plain _ _ _ Hspec), (parseName_github _ Hpre).
  destruct (Split ("github.com" ++ rest) "/") as [|s0 [|s1 [|s2 l]]]; try reflexivity.
  split; [reflexivity|]. now intros tag ->.
Qed.

Lemma github_prefix_without_slash_witness :
  (parseName "github.company/a/b" = inr ("a", "b") /\
   ParsePackage "github.company/a/b v1.0.0" =
   Some (Ok (mkPackage "github.company/a/b" "a" "b" "v1.0.0"))) /\
  ParsePackage "github.comx v1.0.0" = Some (Err (UnexpectedGithubName "github.comx")).
Proof.
  split.
  - pose proof (github_prefix_without_slash "github.company/a/b v1.0.0" "pany/a/b" "v1.0.0")
      as H.
    simpl in H. destruct H as [H1 H2].
    + split; reflexivity.
    + split; [exact H1|]. apply H2. reflexivity.
  - apply (github_prefix_without_slash "github.comx v1.0.0" "x" "v1.0.0").
    split; reflexivity.
Defined.

(** *** The table of well-known packages *)

(** The keys of the map literal are distinct: the first entry [lookup]
    finds for a key is the only one. *)
Lemma wellKnownPackages_NoDup : NoDup (map fst wellKnownPackages).
Proof.
  unfold wellKnownPackages. cbn [map fst].
  repeat (constructor; [cbn [In]; intuition discriminate|]). constructor.
Qed.

(** C6: a name that is a key of the table resolves to its entry; the
    patterns of the hosting prefixes are not tried on it. *)
Theorem table_first (spec name version : string) (wk : WellKnown) :
  plainSpec spec name version ->
  lookup wellKnownPackages name = Some wk ->
  parseName name = inr (wkAccount wk, wkProject wk) /\
  (forall tag, parseVersion version = Some tag ->
     ParsePackage spec = Some (Ok (mkPackage name (wkAccount wk) (wkProject wk) tag))) /\
  (forall p, ParsePackage spec = Some (Ok p) ->
     Account p = wkAccount wk /\ Project p = wkProject wk).
Proof.
  intros Hspec Hwk.
  assert (Hn : parseName name = inr (wkAccount wk, wkProject wk))
    by (unfold parseName; now rewrite Hwk).
  rewrite (ParsePackage_plain _ _ _ Hspec), Hn. split; [reflexivity|]. split.
  - now intros tag ->.
  - intros p. destruct (parseVersion version); [|discriminate].
    intros [= <-]. now split.
Qed.

(** [gopkg.in/fsnotify.v1] is in the table and resolves to
    [fsnotify/fsnotify]; the pattern for [gopkg.in] would have given
    [go-fsnotify/fsnotify]. *)
Lemma table_first_witness :
  ParsePackage "gopkg.in/fsnotify.v1 v1.4.7" =
  Some (Ok (mkPackage "gopkg.in/fsnotify.v1" "fsnotify" "fsnotify" "v1.4.7")) /\
  parseGopkgInPackage "gopkg.in/fsnotify.v1" = ("go-fsnotify", "fsnotify").
Proof.
  split; [|reflexivity].
  apply (table_first "gopkg.in/fsnotify.v1 v1.4.7" "gopkg.in/fsnotify.v1" "v1.4.7"
           (mkWellKnown "fsnotify" "fsnotify")).
  - split; reflexivity.
  - reflexivity.
  - reflexivity.
Defined.

(** *** [gopkg.in] and [golang.org] names *)

Lemma isPkgName_spec (s : string) :
  isPkgName s = true ->
  exists a r, s = String a r /\ isAlnum a = true /\ r <> "" /\ allb isAlnumHyphen r = true.
Proof.
  destruct s as [|a r]; [discriminate|]. simpl.
  rewrite !andb_true_iff, negb_true_iff, String.eqb_neq. intros [[Ha Hr] Hall].
  now exists a, r.
Qed.

Lemma isPkgName_of (a : ascii) (r : string) :
  isAlnum a = true -> r <> "" -> allb isAlnumHyphen r = true ->
  isPkgName (String a r) = true.
Proof.
  intros Ha Hr Hall. simpl. rewrite Ha, Hall.
  apply String.eqb_neq in Hr. now rewrite Hr.
Qed.

Lemma isSuffix_spec (s : string) :
  isSuffix s = true -> s <> "" /\ allb isNotNewline s = true.
Proof.
  unfold isSuffix. rewrite andb_true_iff, negb_true_iff, String.eqb_neq. tauto.
Qed.

(** [[0-9A-Za-z][-0-9A-Za-z]+] takes a whole name. *)
Lemma takes_pkgName (s rest : string) :
  isPkgName s = true -> startsOutside isAlnumHyphen rest = true ->
  takes (Cat (Class isAlnum) (Plus (Class isAlnumHyphen))) s rest keep.
Proof.
  intros Hs Hrest. apply isPkgName_spec in Hs as (a & r & -> & Ha & Hr & Hall).
  apply (takes_Cat _ _ (String a "") r rest keep keep).
  - now apply takes_Class.
  - now apply takes_Plus_Class.
Qed.

Lemma pkgName_inv (k : cont) (pos : nat) (s : string) (c : caps) (y : result) :
  exec (Cat (Class isAlnum) (Plus (Class isAlnumHyphen))) k pos s c = Some y ->
  exists name rest, s = name ++ rest /\ isPkgName name = true /\
                    k (pos + String.length name) rest c = Some y.
Proof.
  intros H. rewrite exec_Cat in H.
  apply exec_Class_inv in H as (a & s' & -> & Ha & H).
  apply exec_Plus_Class_inv in H as (r & rest & -> & Hr & Hall & H).
  exists (String a r), rest. repeat split.
  - now apply isPkgName_of.
  - rewrite <- H. f_equal. simpl. lia.
Qed.

Lemma parseGolangOrgPackage_form (pkg : string) :
  isPkgName pkg = true ->
  parseGolangOrgPackage ("golang.org/x/" ++ pkg) = ("golang", pkg).
Proof.
  intros Hpkg.
  assert (T : exists u, takes
    (Lit "golang.org/x/" ;;
     Capture 1 (Class isAlnum ;; Plus (Class isAlnumHyphen)) ;; EndText)%re
    ("golang.org/x/" ++ pkg ++ "") "" u /\ u [] = [(1, pkg)]).
  { eexists. split.
    - eapply (takes_Cat _ _ "golang.org/x/"); [apply takes_Lit|].
      eapply takes_Cat; [|apply takes_EndText].
      apply takes_Capture. now apply takes_pkgName.
    - reflexivity. }
  destruct T as (u & T & Hu). rewrite append_nil_r in T.
  apply anchored_takes in T as [_ T]; [|discriminate].
  unfold parseGolangOrgPackage, golangOrgRx. rewrite T, Hu. reflexivity.
Qed.

Lemma golangOrgRx_sound (name : string) (y : result) :
  exec (Lit "golang.org/x/" ;;
        Capture 1 (Class isAlnum ;; Plus (Class isAlnumHyphen)) ;; EndText)%re
       accept 0 name [] = Some y ->
  exists pkg, golangOrgForm name pkg.
Proof.
  intros H. rewrite exec_Cat in H. apply exec_Lit_inv in H as (s1 & -> & H).
  rewrite exec_Cat, exec_Capture in H.
  apply pkgName_inv in H as (pkg & s2 & -> & Hpkg & H).
  apply exec_EndText_inv in H as [-> _].
  exists pkg. split; [assumption|]. now rewrite append_nil_r.
Qed.

Lemma parseGolangOrgPackage_other (name : string) :
  ~ (exists pkg, golangOrgForm name pkg) -> parseGolangOrgPackage name = ("", "").
Proof.
  intros Hnot. unfold parseGolangOrgPackage, golangOrgRx.
  destruct (exec (Lit "golang.org/x/" ;;
                  Capture 1 (Class isAlnum ;; Plus (Class isAlnumHyphen)) ;; EndText)%re
                 accept 0 name []) as [y|] eqn:H.
  - exfalso. apply Hnot. now apply golangOrgRx_sound in H.
  - now rewrite FindAll_anchored_none.
Qed.

(** No key of the table starts with [golang.org]. *)
Lemma parseName_golangOrg (name : string) :
  HasPrefix name "golang.org" = true ->
  parseName name = inr (parseGolangOrgPackage name).
Proof.
  intros H. unfold parseName. rewrite H.
  apply HasPrefix_append in H as [rest ->]. reflexivity.
Qed.

(** C7, as the code has it: a name [golang.org/x/<pkg>] whose [<pkg>] is an
    alphanumeric followed by one or more alphanumerics or hyphens resolves
    to the account [golang] and the project [<pkg>]; every other name that
    starts with [golang.org], such as a [golang.org/x/<pkg>] with a [<pkg>]
    of one character or with a dot in it, has both fields empty. *)
Theorem golang_org_name (name : string) :
  HasPrefix name "golang.org" = true ->
  (forall pkg, golangOrgForm name pkg -> parseName name = inr ("golang", pkg)) /\
  (~ (exists pkg, golangOrgForm name pkg) -> parseName name = inr ("", "")).
Proof.
  intros Hpre. rewrite (parseName_golangOrg _ Hpre). split.
  - intros pkg [Hpkg ->]. now rewrite parseGolangOrgPackage_form.
  - intros Hnot. now rewrite parseGolangOrgPackage_other.
Qed.

Lemma not_golangOrgForm (name : string) :
  MatchString golangOrgRx name = false -> ~ (exists pkg, golangOrgForm name pkg).
Proof.
  intros H [pkg [Hpkg ->]].
  pose proof (parseGolangOrgPackage_form pkg Hpkg) as E.
  unfold parseGolangOrgPackage in E.
  unfold golangOrgRx in *. rewrite MatchString_anchored in H.
  destruct (exec _ accept 0 ("golang.org/x/" ++ pkg) []) eqn:Hx; [discriminate|].
  rewrite (FindAll_anchored_none _ _ Hx) in E. discriminate.
Qed.

Lemma golang_org_name_witness :
  parseName "golang.org/x/tools" = inr ("golang", "tools") /\
  parseName "golang.org/x/tools/cmd" = inr ("", "") /\
  ParsePackage "golang.org/x/tools v0.1.0" =
  Some (Ok (mkPackage "golang.org/x/tools" "golang" "tools" "v0.1.0")).
Proof.
  split; [|split].
  - apply (golang_org_name "golang.org/x/tools"); [reflexivity|].
    split; reflexivity.
  - apply (golang_org_name "golang.org/x/tools/cmd"); [reflexivity|].
    apply not_golangOrgForm. reflexivity.
  - reflexivity.
Defined.

(** C7 as stated fails on [golang.org/x/a] and on [golang.org/x/go.net]:
    they are of the form [golang.org/x/<pkg>], and [golangOrgRx], which wants
    two or more characters among alphanumerics and hyphens for [<pkg>],
    leaves them unresolved. *)
Lemma golang_org_name_counterexample :
  (lookup wellKnownPackages ("golang.org/x/" ++ "a") = None /\
   parseName ("golang.org/x/" ++ "a") = inr ("", "") /\
   parseName ("golang.org/x/" ++ "a") <> inr ("golang", "a") /\
   ParsePackage "golang.org/x/a v1.0.0" =
   Some (Ok (mkPackage "golang.org/x/a" "" "" "v1.0.0"))) /\
  (lookup wellKnownPackages ("golang.org/x/" ++ "go.net") = None /\
   parseName ("golang.org/x/" ++ "go.net") = inr ("", "") /\
   parseName ("golang.org/x/" ++ "go.net") <> inr ("golang", "go.net")).
Proof.
  repeat split; try reflexivity; discriminate.
Qed.

Lemma isSuffix_of (s : string) :
  s <> "" -> allb isNotNewline s = true -> isSuffix s = true.
Proof.
  intros Hne Hs. unfold isSuffix. rewrite Hs.
  apply String.eqb_neq in Hne. now rewrite Hne.
Qed.

Lemma takes_suffix (ver : string) :
  isSuffix ver = true ->
  takes (Lit ".v" ;; Plus (Class isNotNewline))%re (".v" ++ ver) "" keep.
Proof.
  intros Hv. apply isSuffix_spec in Hv as [Hne Hv].
  apply (takes_Cat _ _ ".v" ver "" keep keep); [apply takes_Lit|].
  now apply takes_Plus_Class.
Qed.

(** The three forms of [gopkg.in] paths that [gopkgInRx] takes. *)
Lemma FindAll_gopkgIn_pkg (pkg ver : string) :
  isPkgName pkg = true -> isSuffix ver = true ->
  FindAllStringSubmatch gopkgInRx ("gopkg.in/" ++ pkg ++ ".v" ++ ver) =
  [["gopkg.in/" ++ pkg ++ ".v" ++ ver; pkg; ""]].
Proof.
  intros Hpkg Hver.
  assert (T : exists u, takes
    (Lit "gopkg.in/" ;;
     Capture 1 (Class isAlnum ;; Plus (Class isAlnumHyphen)) ;;
     Quest (Lit ".v" ;; Plus (Class isNotNewline)) ;;
     Quest (Lit "/" ;;
            Capture 2 (Class isAlnum ;; Plus (Class isAlnumHyphen)) ;;
            (Lit ".v" ;; Plus (Class isNotNewline))) ;;
     EndText)%re
    ("gopkg.in/" ++ pkg ++ (".v" ++ ver) ++ "" ++ "") "" u /\ u [] = [(1, pkg)]).
  { eexists. split.
    - eapply (takes_Cat _ _ "gopkg.in/"); [apply takes_Lit|].
      eapply takes_Cat; [apply takes_Capture; now apply takes_pkgName|].
      eapply takes_Cat; [apply takes_Quest; now apply takes_suffix|].
      eapply takes_Cat; [|apply takes_EndText].
      apply takes_Quest_skip, fails_Cat, fails_Lit. reflexivity.
    - reflexivity. }
  destruct T as (u & T & Hu). rewrite !append_nil_r in T.
  apply anchored_takes in T as [_ T]; [|discriminate].
  unfold gopkgInRx. rewrite T, Hu. reflexivity.
Qed.

Lemma FindAll_gopkgIn_user (user pkg ver : string) :
  isPkgName user = true -> isPkgName pkg = true -> isSuffix ver = true ->
  FindAllStringSubmatch gopkgInRx ("gopkg.in/" ++ user ++ "/" ++ pkg ++ ".v" ++ ver) =
  [["gopkg.in/" ++ user ++ "/" ++ pkg ++ ".v" ++ ver; user; pkg]].
Proof.
  intros Huser Hpkg Hver.
  assert (T : exists u, takes
    (Lit "gopkg.in/" ;;
     Capture 1 (Class isAlnum ;; Plus (Class isAlnumHyphen)) ;;
     Quest (Lit ".v" ;; Plus (Class isNotNewline)) ;;
     Quest (Lit "/" ;;
            Capture 2 (Class isAlnum ;; Plus (Class isAlnumHyphen)) ;;
            (Lit ".v" ;; Plus (Class isNotNewline))) ;;
     EndText)%re
    ("gopkg.in/" ++ user ++ "" ++ ("/" ++ pkg ++ ".v" ++ ver) ++ "") "" u /\
    u [] = [(2, pkg); (1, user)]).
  { eexists. split.
    - eapply (takes_Cat _ _ "gopkg.in/"); [apply takes_Lit|].
      eapply takes_Cat; [apply takes_Capture; now apply takes_pkgName|].
      eapply takes_Cat.
      { apply takes_Quest_skip, fails_Cat, fails_Lit. reflexivity. }
      eapply takes_Cat; [|apply takes_EndText].
      apply takes_Quest.
      eapply (takes_Cat _ _ "/"); [apply takes_Lit|].
      eapply takes_Cat; [apply takes_Capture; now apply takes_pkgName|].
      now apply takes_suffix.
    - reflexivity. }
  destruct T as (u & T & Hu). cbn [append] in T |- *. rewrite !append_nil_r in T.
  apply anchored_takes in T as [_ T]; [|discriminate].
  unfold gopkgInRx. rewrite T, Hu. reflexivity.
Qed.

Lemma FindAll_gopkgIn_bare (pkg : string) :
  isPkgName pkg = true ->
  FindAllStringSubmatch gopkgInRx ("gopkg.in/" ++ pkg) = [["gopkg.in/" ++ pkg; pkg; ""]].
Proof.
  intros Hpkg.
  assert (T : exists u, takes
    (Lit "gopkg.in/" ;;
     Capture 1 (Class isAlnum ;; Plus (Class isAlnumHyphen)) ;;
     Quest (Lit ".v" ;; Plus (Class isNotNewline)) ;;
     Quest (Lit "/" ;;
            Capture 2 (Class isAlnum ;; Plus (Class isAlnumHyphen)) ;;
            (Lit ".v" ;; Plus (Class isNotNewline))) ;;
     EndText)%re
    ("gopkg.in/" ++ pkg ++ "" ++ "" ++ "") "" u /\ u [] = [(1, pkg)]).
  { eexists. split.
    - eapply (takes_Cat _ _ "gopkg.in/"); [apply takes_Lit|].
      eapply takes_Cat; [apply takes_Capture; now apply takes_pkgName|].
      eapply takes_Cat.
      { apply takes_Quest_skip, fails_Cat, fails_Lit. reflexivity. }
      eapply takes_Cat; [|apply takes_EndText].
      apply takes_Quest_skip, fails_Cat, fails_Lit. reflexivity.
    - reflexivity. }
  destruct T as (u & T & Hu). cbn [append] in T |- *. rewrite !append_nil_r in T.
  apply anchored_takes in T as [_ T]; [|discriminate].
  unfold gopkgInRx. rewrite T, Hu. reflexivity.
Qed.

Lemma isPkgName_nonempty (s : string) : isPkgName s = true -> (s =? "")%string = false.
Proof. destruct s; [discriminate|reflexivity]. Qed.

Lemma parseGopkgInPackage_form (name account project : string) :
  gopkgInForm name account project ->
  parseGopkgInPackage name = (account, project).
Proof.
  intros [pkg ver Hpkg Hver|user pkg ver Huser Hpkg Hver|pkg Hpkg];
    unfold parseGopkgInPackage.
  - now rewrite FindAll_gopkgIn_pkg.
  - rewrite FindAll_gopkgIn_user by assumption. cbn [nth].
    now rewrite isPkgName_nonempty.
  - now rewrite FindAll_gopkgIn_bare.
Qed.

Lemma isAlnumHyphen_isNotNewline (a : ascii) :
  isAlnumHyphen a = true -> isNotNewline a = true.
Proof.
  intros H. unfold isNotNewline. destruct (code a =? 10) eqn:E; [|reflexivity].
  apply Nat.eqb_eq in E.
  assert (Ea : a = ascii_of_nat 10)
    by (rewrite <- E; unfold code; symmetry; apply ascii_nat_embedding).
  subst a. discriminate.
Qed.

Lemma isPkgName_isNotNewline (s : string) :
  isPkgName s = true -> allb isNotNewline s = true.
Proof.
  intros H. apply isPkgName_spec in H as (a & r & -> & Ha & _ & Hr).
  rewrite allb_cons. apply andb_true_iff. split.
  - apply isAlnumHyphen_isNotNewline. unfold isAlnumHyphen. rewrite Ha. apply orb_true_r.
  - revert Hr. apply allb_impl, isAlnumHyphen_isNotNewline.
Qed.

Lemma suffix_inv (k : cont) (pos : nat) (s : string) (c : caps) (y : result) :
  exec (Lit ".v" ;; Plus (Class isNotNewline))%re k pos s c = Some y ->
  exists ver rest, s = ".v" ++ ver ++ rest /\ isSuffix ver = true /\
                   k (pos + 2 + String.length ver) rest c = Some y.
Proof.
  intros H. rewrite exec_Cat in H. apply exec_Lit_inv in H as (s1 & -> & H).
  apply exec_Plus_Class_inv in H as (ver & rest & -> & Hne & Hver & H).
  exists ver, rest. repeat split; [now apply isSuffix_of|exact H].
Qed.

(** The second optional part of [gopkgInRx], up to the end of the text. *)
Lemma gopkgIn_second_inv (pos : nat) (s : string) (c : caps) (y : result) :
  exec (Quest (Lit "/" ;;
               Capture 2 (Class isAlnum ;; Plus (Class isAlnumHyphen)) ;;
               (Lit ".v" ;; Plus (Class isNotNewline))) ;;
        EndText)%re accept pos s c = Some y ->
  s = "" \/
  exists pkg ver, s = "/" ++ pkg ++ ".v" ++ ver /\
                  isPkgName pkg = true /\ isSuffix ver = true.
Proof.
  intros H. rewrite exec_Cat in H. apply exec_Quest_inv in H as [H|H].
  - right. rewrite exec_Cat in H. apply exec_Lit_inv in H as (s1 & -> & H).
    rewrite exec_Cat, exec_Capture in H.
    apply pkgName_inv in H as (pkg & s2 & -> & Hpkg & H).
    apply suffix_inv in H as (ver & s3 & -> & Hver & H).
    apply exec_EndText_inv in H as [-> _].
    exists pkg, ver. now rewrite append_nil_r.
  - left. now apply exec_EndText_inv in H as [-> _].
Qed.

(** [gopkgInRx] matches the paths of the three forms only. *)
Lemma gopkgInRx_sound (name : string) (y : result) :
  exec (Lit "gopkg.in/" ;;
        Capture 1 (Class isAlnum ;; Plus (Class isAlnumHyphen)) ;;
        Quest (Lit ".v" ;; Plus (Class isNotNewline)) ;;
        Quest (Lit "/" ;;
               Capture 2 (Class isAlnum ;; Plus (Class isAlnumHyphen)) ;;
               (Lit ".v" ;; Plus (Class isNotNewline))) ;;
        EndText)%re accept 0 name [] = Some y ->
  exists account project, gopkgInForm name account project.
Proof.
  intros H. rewrite exec_Cat in H. apply exec_Lit_inv in H as (s1 & -> & H).
  rewrite exec_Cat, exec_Capture in H.
  apply pkgName_inv in H as (pkg & s2 & -> & Hpkg & H).
  rewrite exec_Cat in H. apply exec_Quest_inv in H as [H|H].
  - apply suffix_inv in H as (ver & s3 & -> & Hver & H).
    apply gopkgIn_second_inv in H as [->|(pkg2 & ver2 & -> & Hpkg2 & Hver2)].
    + rewrite append_nil_r. eauto using gopkgInForm.
    + exists ("go-" ++ pkg), pkg. apply gopkgIn_pkg; [assumption|].
      apply isSuffix_spec in Hver as [Hne Hver].
      apply isSuffix_spec in Hver2 as [_ Hver2].
      apply isSuffix_of.
      * destruct ver; [congruence|discriminate].
      * rewrite allb_append, Hver.
        change ("/" ++ pkg2 ++ ".v" ++ ver2) with (String "/" (pkg2 ++ ".v" ++ ver2)).
        rewrite allb_cons, allb_append, isPkgName_isNotNewline by assumption.
        change (".v" ++ ver2) with (String "." (String "v" ver2)).
        rewrite !allb_cons, Hver2. reflexivity.
  - apply gopkgIn_second_inv in H as [->|(pkg2 & ver2 & -> & Hpkg2 & Hver2)].
    + rewrite append_nil_r. eauto using gopkgInForm.
    + eauto using gopkgInForm.
Qed.

Lemma parseGopkgInPackage_other (name : string) :
  ~ (exists account project, gopkgInForm name account project) ->
  parseGopkgInPackage name = ("", "").
Proof.
  intros Hnot. unfold parseGopkgInPackage, gopkgInRx.
  destruct (exec (Lit "gopkg.in/" ;;
        Capture 1 (Class isAlnum ;; Plus (Class isAlnumHyphen)) ;;
        Quest (Lit ".v" ;; Plus (Class isNotNewline)) ;;
        Quest (Lit "/" ;;
               Capture 2 (Class isAlnum ;; Plus (Class isAlnumHyphen)) ;;
               (Lit ".v" ;; Plus (Class isNotNewline))) ;;
        EndText)%re accept 0 name []) as [y|] eqn:H.
  - exfalso. apply Hnot. now apply gopkgInRx_sound in H.
  - now rewrite FindAll_anchored_none.
Qed.

Lemma parseName_gopkgIn (name : string) :
  lookup wellKnownPackages name = None ->
  HasPrefix name "gopkg.in" = true ->
  parseName name = inr (parseGopkgInPackage name).
Proof.
  intros Hwk H. unfold parseName. rewrite Hwk, H.
  apply HasPrefix_append in H as [rest ->]. reflexivity.
Qed.

(** C5, as the code has it: for a name that starts with [gopkg.in] and is
    not in the table, [gopkg.in/<pkg>.v<N>] resolves to the account
    [go-<pkg>] and the project [<pkg>], [gopkg.in/<user>/<pkg>.v<N>] to
    [<user>] and [<pkg>], and [gopkg.in/<pkg>], with no version suffix, to
    [go-<pkg>] and [<pkg>] as well ([<pkg>] and [<user>] an alphanumeric
    followed by one or more alphanumerics or hyphens, [<N>] any non-empty
    text without a line feed); every name of none of these three forms has
    both fields empty, and none makes name resolution fail. *)
Theorem gopkg_in_name (name : string) :
  lookup wellKnownPackages name = None ->
  HasPrefix name "gopkg.in" = true ->
  (forall account project,
     gopkgInForm name account project -> parseName name = inr (account, project)) /\
  (~ (exists account project, gopkgInForm name account project) ->
   parseName name = inr ("", "")).
Proof.
  intros Hwk Hpre. rewrite (parseName_gopkgIn _ Hwk Hpre). split.
  - intros account project H. now rewrite (parseGopkgInPackage_form _ _ _ H).
  - intros Hnot. now rewrite parseGopkgInPackage_other.
Qed.

Lemma not_gopkgInForm (name : string) :
  FindAllStringSubmatch gopkgInRx name = [] ->
  ~ (exists account project, gopkgInForm name account project).
Proof.
  intros H (account & project & Hf).
  destruct Hf as [pkg ver Hpkg Hver|user pkg ver Huser Hpkg Hver|pkg Hpkg].
  - rewrite FindAll_gopkgIn_pkg in H by assumption. discriminate.
  - rewrite FindAll_gopkgIn_user in H by assumption. discriminate.
  - rewrite FindAll_gopkgIn_bare in H by assumption. discriminate.
Qed.

Lemma gopkg_in_name_witness :
  parseName "gopkg.in/yaml.v2" = inr ("go-yaml", "yaml") /\
  parseName "gopkg.in/go-check/check.v1" = inr ("go-check", "check") /\
  parseName "gopkg.in/yaml" = inr ("go-yaml", "yaml") /\
  parseName "gopkg.in/a.v1" = inr ("", "").
Proof.
  split; [|split; [|split]].
  - apply (gopkg_in_name "gopkg.in/yaml.v2"); try reflexivity.
    apply (gopkgIn_pkg "yaml" "2"); reflexivity.
  - apply (gopkg_in_name "gopkg.in/go-check/check.v1"); try reflexivity.
    apply (gopkgIn_user "go-check" "check" "1"); reflexivity.
  - apply (gopkg_in_name "gopkg.in/yaml"); try reflexivity.
    apply (gopkgIn_bare "yaml"); reflexivity.
  - apply (gopkg_in_name "gopkg.in/a.v1"); try reflexivity.
    apply not_gopkgInForm. reflexivity.
Defined.

(** C5 as stated fails on [gopkg.in/yaml]: it is of neither of the two
    forms with a [.v<N>] suffix, and yet it resolves. *)
Lemma gopkg_in_name_counterexample :
  lookup wellKnownPackages "gopkg.in/yaml" = None /\
  (forall pkg ver, "gopkg.in/yaml" <> "gopkg.in/" ++ pkg ++ ".v" ++ ver) /\
  (forall user pkg ver, "gopkg.in/yaml" <> "gopkg.in/" ++ user ++ "/" ++ pkg ++ ".v" ++ ver) /\
  parseName "gopkg.in/yaml" = inr ("go-yaml", "yaml") /\
  ParsePackage "gopkg.in/yaml v2.2.2" =
  Some (Ok (mkPackage "gopkg.in/yaml" "go-yaml" "yaml" "v2.2.2")).
Proof.
  split; [reflexivity|]. split; [|split; [|split; reflexivity]].
  - intros pkg ver H. injection H as H.
    destruct pkg as [|a [|b [|c [|d [|e pkg]]]]]; simpl in H; try discriminate;
      injection H as; subst; discriminate.
  - intros user pkg ver H. injection H as H.
    destruct user as [|a [|b [|c [|d [|e user]]]]]; simpl in H; try discriminate;
      injection H as; subst; discriminate.
Qed.

End PlainSpecs.

(** ** Fields *)

Section FieldsFacts.

Lemma spaceWidth_stable (a : ascii) (s t : string) :
  spaceWidth (String a s) = 0 -> spaceWidth (String a (s ++ " " ++ t)) = 0.
Proof.
  destruct s as [|b [|c s]]; cbn [spaceWidth append];
    destruct (isASCIISpace a); try discriminate; try trivial.
  - intros _. change (code " ") with 32. cbn [Nat.eqb orb]. rewrite andb_false_r.
    destruct t as [|c t]; [reflexivity|].
    cbn [Nat.eqb]. now rewrite !andb_false_r.
  - destruct ((code a =? 194) && ((code b =? 133) || (code b =? 160)));
      [discriminate|intros _].
    unfold inRange. change (code " ") with 32.
    cbn [Nat.eqb Nat.leb andb orb]. now rewrite !andb_false_r.
Qed.

Lemma fieldsFrom_noSpace (s : string) :
  noSpace s = true -> fieldsFrom 0 s = (s, []).
Proof.
  induction s as [|a s IH]; [reflexivity|].
  cbn [noSpace]. rewrite andb_true_iff, Nat.eqb_eq. intros [Ha Hs].
  cbn [fieldsFrom]. rewrite Ha, (IH Hs). reflexivity.
Qed.

Lemma fieldsFrom_space (s t : string) :
  noSpace s = true ->
  fieldsFrom 0 (s ++ " " ++ t) = (s, flush (fieldsFrom 0 t)).
Proof.
  induction s as [|a s IH]; [reflexivity|].
  cbn [noSpace]. rewrite andb_true_iff, Nat.eqb_eq. intros [Ha Hs].
  change (String a s ++ " " ++ t) with (String a (s ++ " " ++ t)).
  cbn [fieldsFrom]. rewrite (spaceWidth_stable _ _ _ Ha), (IH Hs). reflexivity.
Qed.

(** A name, a space and a version have the name and the version for
    fields. *)
Lemma Fields_tokens (name version : string) :
  isToken name = true -> isToken version = true ->
  Fields (name ++ " " ++ version) = [name; version].
Proof.
  unfold isToken. rewrite !andb_true_iff, !negb_true_iff, !String.eqb_neq.
  intros [Hn Hname] [Hv Hversion]. unfold Fields.
  rewrite fieldsFrom_space, fieldsFrom_noSpace by assumption.
  unfold flush. cbn [fst snd].
  destruct name; [congruence|]. destruct version; [congruence|]. reflexivity.
Qed.

Lemma noSpace_head (a : ascii) (s : string) :
  noSpace (String a s) = true -> Ascii.eqb " " a = false.
Proof.
  cbn [noSpace]. rewrite andb_true_iff, Nat.eqb_eq. intros [Ha _].
  destruct (Ascii.eqb_spec " " a) as [<-|]; [discriminate|reflexivity].
Qed.

Lemma noSpace_tail (a : ascii) (s : string) :
  noSpace (String a s) = true -> noSpace s = true.
Proof. cbn [noSpace]. rewrite andb_true_iff. tauto. Qed.

Lemma HasPrefix_replaceOp_head (a : ascii) (s : string) :
  Ascii.eqb " " a = false -> HasPrefix (String a s) replaceOp = false.
Proof. intros H. unfold replaceOp. cbn [HasPrefix]. now rewrite H. Qed.

Lemma Contains_noSpace (s : string) :
  noSpace s = true -> Contains s replaceOp = false.
Proof.
  induction s as [|a s IH]; [reflexivity|]. intros H.
  cbn [Contains]. rewrite (HasPrefix_replaceOp_head _ _ (noSpace_head _ _ H)).
  apply IH. now apply noSpace_tail in H.
Qed.

(** A name, a space and a version do not contain the replace operator. *)
Lemma Contains_tokens (name version : string) :
  noSpace name = true -> noSpace version = true ->
  Contains (name ++ " " ++ version) replaceOp = false.
Proof.
  intros Hname Hversion. induction name as [|a name IH].
  - cbn [append Contains]. rewrite (Contains_noSpace _ Hversion), orb_false_r.
    destruct (HasPrefix (String " " version) replaceOp) eqn:E; [|reflexivity].
    apply HasPrefix_append in E as [r E]. injection E as ->.
    apply noSpace_tail, noSpace_tail, noSpace_head in Hversion. discriminate.
  - change (String a name ++ " " ++ version)
      with (String a (name ++ " " ++ version)).
    cbn [Contains]. rewrite (HasPrefix_replaceOp_head _ _ (noSpace_head _ _ Hname)).
    apply IH. now apply noSpace_tail in Hname.
Qed.

(** The plain specs the manifest has: a name, a space, a version. *)
Lemma plainSpec_tokens (name version : string) :
  isToken name = true -> isToken version = true ->
  plainSpec (name ++ " " ++ version) name version.
Proof.
  intros Hname Hversion. split.
  - unfold isToken in *. apply andb_true_iff in Hname as [_ Hname].
    apply andb_true_iff in Hversion as [_ Hversion]. now apply Contains_tokens.
  - now apply Fields_tokens.
Qed.

(** *** The version strings are tokens *)

Lemma inRange_mono (lo hi lo' hi' : nat) (a : ascii) :
  lo' <= lo -> hi <= hi' -> inRange lo hi a = true -> inRange lo' hi' a = true.
Proof.
  unfold inRange. rewrite !andb_true_iff, !Nat.leb_le. lia.
Qed.

Lemma spaceWidth_graphic (a : ascii) (s : string) :
  isGraphic a = true -> spaceWidth (String a s) = 0.
Proof.
  unfold isGraphic, inRange. rewrite andb_true_iff, !Nat.leb_le. intros [H1 H2].
  cbn [spaceWidth]. unfold isASCIISpace, inRange.
  replace (code a <=? 13) with false by (symmetry; apply Nat.leb_gt; lia).
  replace (code a =? 32) with false by (symmetry; apply Nat.eqb_neq; lia).
  replace (code a =? 194) with false by (symmetry; apply Nat.eqb_neq; lia).
  replace (code a =? 225) with false by (symmetry; apply Nat.eqb_neq; lia).
  replace (code a =? 226) with false by (symmetry; apply Nat.eqb_neq; lia).
  replace (code a =? 227) with false by (symmetry; apply Nat.eqb_neq; lia).
  rewrite andb_false_r. cbn [orb andb].
  destruct s as [|b [|c s]]; reflexivity.
Qed.

Lemma noSpace_graphic (s : string) : allb isGraphic s = true -> noSpace s = true.
Proof.
  induction s as [|a s IH]; [reflexivity|].
  rewrite allb_cons, andb_true_iff. intros [Ha Hs].
  cbn [noSpace]. now rewrite (spaceWidth_graphic _ _ Ha), IH.
Qed.

Lemma isDigit_isGraphic (a : ascii) : isDigit a = true -> isGraphic a = true.
Proof. apply inRange_mono; lia. Qed.

Lemma isAlnum_isGraphic (a : ascii) : isAlnum a = true -> isGraphic a = true.
Proof.
  unfold isAlnum. rewrite !orb_true_iff.
  intros [[H|H]|H]; revert H; apply inRange_mono; lia.
Qed.

Lemma isLowerHex_isGraphic (a : ascii) : isLowerHex a = true -> isGraphic a = true.
Proof.
  unfold isLowerHex. rewrite !orb_true_iff.
  intros [H|H]; revert H; apply inRange_mono; lia.
Qed.

Lemma isAlnumDotHyphen_isGraphic (a : ascii) :
  isAlnumDotHyphen a = true -> isGraphic a = true.
Proof.
  unfold isAlnumDotHyphen. rewrite !orb_true_iff, !Ascii.eqb_eq.
  intros [[H|H]|H]; [now apply isAlnum_isGraphic|now subst|now subst].
Qed.

Lemma isNumber_graphic (s : string) : isNumber s = true -> allb isGraphic s = true.
Proof.
  intros H. apply isNumber_spec in H as [_ H]. revert H.
  apply allb_impl, isDigit_isGraphic.
Qed.

Lemma isToken_graphic (s : string) :
  s <> "" -> allb isGraphic s = true -> isToken s = true.
Proof.
  intros Hne Hs. unfold isToken. rewrite (noSpace_graphic _ Hs).
  apply String.eqb_neq in Hne. now rewrite Hne.
Qed.

Lemma coreText_graphic (major minor patch : string) :
  isCore major minor patch = true ->
  allb isGraphic (coreText major minor patch) = true.
Proof.
  intros H. apply isCore_spec in H as (H1 & H2 & H3). unfold coreText.
  change ("v" ++ major ++ "." ++ minor ++ "." ++ patch)
    with (String "v" (major ++ String "." (minor ++ String "." patch))).
  rewrite allb_cons, allb_append, allb_cons, allb_append, allb_cons.
  now rewrite !isNumber_graphic.
Qed.

(** Every pseudo-version, after a name and a space, makes a plain spec. *)
Lemma plainSpec_pseudoVersion (least : nat) (name major minor patch : string)
  (n : option string) (timestamp commit : string) :
  isToken name = true ->
  isPseudoVersion least major minor patch n timestamp commit = true ->
  plainSpec (name ++ " " ++ pseudoVersionText major minor patch n timestamp commit)
            name (pseudoVersionText major minor patch n timestamp commit).
Proof.
  intros Hname H. apply plainSpec_tokens; [assumption|].
  unfold isPseudoVersion in H. rewrite !andb_true_iff in H.
  destruct H as [[[[[Hcore Hn] _] Hts] _] Hc].
  apply isToken_graphic.
  - unfold pseudoVersionText, coreText. discriminate.
  - unfold pseudoVersionText.
    rewrite allb_append, (coreText_graphic _ _ _ Hcore).
    change ("-" ++ counterText n ++ timestamp ++ "-" ++ commit)
      with (String "-" (counterText n ++ timestamp ++ String "-" commit)).
    rewrite allb_cons, !allb_append, allb_cons.
    rewrite (allb_impl _ _ _ isDigit_isGraphic Hts).
    rewrite (allb_impl _ _ _ isLowerHex_isGraphic Hc).
    destruct n as [d|]; [|reflexivity].
    cbn [counterText isCounter] in *.
    now rewrite allb_append, (isNumber_graphic _ Hn).
Qed.

(** Every semantic version, after a name and a space, makes a plain spec. *)
Lemma plainSpec_semver (least : nat) (name major minor patch : string)
  (pre : option string) (incompatible : bool) :
  isToken name = true ->
  isCore major minor patch = true -> isPrerelease least pre = true ->
  plainSpec (name ++ " " ++ semverText major minor patch pre incompatible)
            name (semverText major minor patch pre incompatible).
Proof.
  intros Hname Hcore Hpre. apply plainSpec_tokens; [assumption|].
  apply isToken_graphic.
  - unfold semverText, coreText. discriminate.
  - unfold semverText.
    rewrite !allb_append, (coreText_graphic _ _ _ Hcore).
    assert (Hi : allb isGraphic (incompatibleText incompatible) = true)
      by (destruct incompatible; reflexivity).
    rewrite Hi, andb_true_r.
    destruct pre as [[|a s]|]; try reflexivity; try discriminate.
    cbn [isPrerelease] in Hpre. rewrite !andb_true_iff in Hpre.
    destruct Hpre as [[Ha Hs] _].
    change (prereleaseText (Some (String a s))) with (String "-" (String a s)).
    rewrite !allb_cons, (isAlnum_isGraphic _ Ha).
    now rewrite (allb_impl _ _ _ isAlnumDotHyphen_isGraphic Hs).
Qed.

End FieldsFacts.

(** ** Replace specs *)

Section ReplaceSpecs.

Variable sep : string.
Hypothesis sep_nonempty : sep <> "".

Lemma HasPrefix_nil (s : string) : HasPrefix s "" = true.
Proof. destruct s; reflexivity. Qed.

Lemma HasPrefix_trans (s l p : string) :
  HasPrefix s l = true -> HasPrefix l p = true -> HasPrefix s p = true.
Proof.
  revert s l. induction p as [|c p IH]; intros s l Hsl Hlp; [apply HasPrefix_nil|].
  destruct l as [|b l]; [discriminate|]. destruct s as [|a s]; [discriminate|].
  cbn [HasPrefix] in *. apply andb_true_iff in Hsl as [Hba Hsl].
  apply andb_true_iff in Hlp as [Hcb Hlp].
  apply Ascii.eqb_eq in Hba, Hcb. subst. rewrite Ascii.eqb_refl. simpl. eauto.
Qed.

Lemma Contains_nil : Contains "" sep = false.
Proof. destruct sep; [congruence|reflexivity]. Qed.

Lemma splitFrom_nonnil (skip : nat) (s : string) : splitFrom sep skip s <> [].
Proof.
  revert skip. induction s as [|a s IH]; intros skip; cbn [splitFrom]; [discriminate|].
  destruct skip; [|apply IH]. destruct (HasPrefix (String a s) sep); [discriminate|].
  specialize (IH 0). destruct (splitFrom sep 0 s); [congruence|discriminate].
Qed.

Lemma consHead_cons (a : ascii) (s : string) :
  exists h t, splitFrom sep 0 s = h :: t /\
              consHead a (splitFrom sep 0 s) = String a h :: t.
Proof.
  pose proof (splitFrom_nonnil 0 s) as H.
  destruct (splitFrom sep 0 s) as [|h t]; [congruence|]. now exists h, t.
Qed.

(** A text that [Split] leaves in one piece does not contain the separator. *)
Lemma splitFrom_single (s r : string) :
  splitFrom sep 0 s = [r] -> r = s /\ Contains s sep = false.
Proof.
  revert r. induction s as [|a s IH]; intros r; cbn [splitFrom].
  - intros [= <-]. split; [reflexivity|]. destruct sep; [congruence|reflexivity].
  - destruct (HasPrefix (String a s) sep) eqn:Hp.
    + intros [= _ H]. now apply splitFrom_nonnil in H.
    + destruct (consHead_cons a s) as (h & t & E & ->). intros [= <- ->].
      apply IH in E as [-> E]. split; [reflexivity|].
      cbn [Contains]. now rewrite Hp, E.
Qed.

Lemma splitFrom_single_skip (skip : nat) (s r : string) :
  splitFrom sep skip s = [r] -> Contains r sep = false.
Proof.
  revert skip. induction s as [|a s IH]; intros skip.
  - simpl. intros [= <-]. apply Contains_nil.
  - destruct skip as [|skip].
    + intros H. now apply splitFrom_single in H as [-> H].
    + simpl. apply IH.
Qed.

Lemma splitFrom_head_prefix (s l : string) (t : list string) :
  splitFrom sep 0 s = l :: t -> HasPrefix s l = true.
Proof.
  revert l t. induction s as [|a s IH]; intros l t; cbn [splitFrom].
  - now intros [= <- _].
  - destruct (HasPrefix (String a s) sep).
    + now intros [= <- _].
    + destruct (consHead_cons a s) as (h & t' & E & ->). intros [= <- _].
      simpl. rewrite Ascii.eqb_refl. simpl. eauto.
Qed.

(** Neither of the two pieces of a text cut once contains the separator. *)
Lemma splitFrom_two (s l r : string) :
  splitFrom sep 0 s = [l; r] ->
  Contains l sep = false /\ Contains r sep = false.
Proof.
  revert l. induction s as [|a s IH]; intros l; cbn [splitFrom]; [discriminate|].
  destruct (HasPrefix (String a s) sep) eqn:Hp.
  - intros [= <- H]. split; [apply Contains_nil|].
    now apply splitFrom_single_skip in H.
  - destruct (consHead_cons a s) as (h & t & E & ->). intros [= <- ->].
    destruct (IH _ E) as [Hh Hr]. split; [|assumption].
    cbn [Contains]. rewrite Hh, orb_false_r.
    destruct (HasPrefix (String a h) sep) eqn:Hah; [|reflexivity].
    apply splitFrom_head_prefix in E.
    assert (Hs : HasPrefix (String a s) (String a h) = true)
      by (simpl; now rewrite Ascii.eqb_refl).
    rewrite (HasPrefix_trans _ _ _ Hs Hah) in Hp. discriminate.
Qed.

Lemma splitFrom_skip (x t : string) :
  splitFrom sep (String.length x) (x ++ t) = splitFrom sep 0 t.
Proof. induction x as [|a x IH]; simpl; [reflexivity|assumption]. Qed.

(** The two pieces, with the separator between them, make up the text. *)
Lemma splitFrom_two_join (s l r : string) :
  splitFrom sep 0 s = [l; r] -> s = l ++ sep ++ r.
Proof.
  revert l. induction s as [|a s IH]; intros l; cbn [splitFrom]; [discriminate|].
  destruct (HasPrefix (String a s) sep) eqn:Hp.
  - intros [= <- H]. apply HasPrefix_append in Hp as [t Ht].
    assert (Es : exists b x, sep = String b x)
      by (destruct sep as [|b x]; [congruence|now exists b, x]).
    destruct Es as (b & x & Es).
    replace (String.length sep - 1) with (String.length x) in H
      by (rewrite Es; simpl; lia).
    rewrite Es in Ht. simpl in Ht. injection Ht as -> ->.
    rewrite splitFrom_skip in H.
    apply splitFrom_single in H as [-> _]. rewrite Es. reflexivity.
  - destruct (consHead_cons a s) as (h & t & E & ->). intros [= <- ->].
    simpl. f_equal. now apply IH.
Qed.

Lemma occurrences_none (s : string) :
  occurrences s sep = 0 -> Contains s sep = false.
Proof.
  induction s as [|a s IH]; cbn [occurrences Contains].
  - destruct (HasPrefix "" sep); [discriminate|reflexivity].
  - destruct (HasPrefix (String a s) sep); [discriminate|]. simpl. exact IH.
Qed.

Lemma occurrences_append (x y : string) : 1 <= occurrences (x ++ sep ++ y) sep.
Proof.
  induction x as [|a x IH].
  - cbn [append]. destruct (sep ++ y) eqn:E; cbn [occurrences]; rewrite <- E;
      rewrite HasPrefix_prefix; lia.
  - change (String a x ++ sep ++ y) with (String a (x ++ sep ++ y)).
    cbn [occurrences]. lia.
Qed.

Lemma Contains_suffix (x y : string) :
  Contains (x ++ y) sep = false -> Contains y sep = false.
Proof.
  induction x as [|a x IH]; [trivial|].
  change (String a x ++ y) with (String a (x ++ y)). cbn [Contains].
  intros H. apply orb_false_iff in H as [_ H]. auto.
Qed.

Lemma splitFrom_regular (s : string) :
  Contains s sep = false -> splitFrom sep 0 s = [s].
Proof.
  induction s as [|a s IH]; [reflexivity|].
  cbn [Contains splitFrom]. intros H. apply orb_false_iff in H as [Hp H].
  now rewrite Hp, IH.
Qed.

(** A text in which the separator occurs once, overlaps counted, is cut
    into what is before it and what is after it. *)
Lemma splitFrom_once (old new : string) :
  occurrences (old ++ sep ++ new) sep = 1 ->
  splitFrom sep 0 (old ++ sep ++ new) = [old; new].
Proof.
  induction old as [|a old IH]; intros H.
  - cbn [append] in *.
    assert (Es : exists b x, sep = String b x)
      by (destruct sep as [|b x]; [congruence|now exists b, x]).
    destruct Es as (b & x & Es).
    assert (Hp : HasPrefix (sep ++ new) sep = true) by apply HasPrefix_prefix.
    assert (E : sep ++ new = String b (x ++ new)) by now rewrite Es.
    rewrite E in H |- *. cbn [occurrences splitFrom] in *.
    rewrite <- E, Hp in *.
    replace (String.length sep - 1) with (String.length x)
      by (rewrite Es; simpl; lia).
    rewrite splitFrom_skip, splitFrom_regular; [reflexivity|].
    apply (Contains_suffix x), occurrences_none. lia.
  - change (String a old ++ sep ++ new) with (String a (old ++ sep ++ new)) in *.
    cbn [occurrences splitFrom] in *.
    pose proof (occurrences_append old new) as Hge.
    destruct (HasPrefix (String a (old ++ sep ++ new)) sep); [lia|].
    rewrite IH by lia. reflexivity.
Qed.

End ReplaceSpecs.

Section ReplaceParsing.

Lemma replaceOp_nonempty : replaceOp <> "".
Proof. discriminate. Qed.

(** On a spec without the replace operator the bound plays no part. *)
Lemma ParsePackageAt_regular (fuel : nat) (spec : string) :
  Contains spec replaceOp = false -> ParsePackageAt fuel spec = ParsePackage spec.
Proof.
  intros H. unfold ParsePackage.
  destruct fuel, (String.length spec); cbn [ParsePackageAt]; now rewrite H.
Qed.

Lemma ParsePackage_regular_total (spec : string) :
  Contains spec replaceOp = false -> exists o, ParsePackage spec = Some o.
Proof.
  intros H. rewrite <- (ParsePackageAt_regular 0 spec H).
  cbn [ParsePackageAt]. rewrite H.
  destruct (Fields spec) as [|name [|version [|x l]]]; eauto.
  destruct (parseName name) as [err|[account project]]; eauto.
  destruct (parseVersion version); eauto.
Qed.

(** [ParsePackage] on a replace spec, the recursion unfolded. *)
Lemma ParsePackage_replace (spec : string) :
  Contains spec replaceOp = true ->
  ParsePackage spec =
  match Split spec replaceOp with
  | [old; new] =>
      match ParsePackage old with
      | None => None
      | Some (Err err) => Some (Err err)
      | Some (Ok pOld) =>
          match ParsePackage new with
          | None => None
          | Some (Err err) => Some (Err err)
          | Some (Ok p) =>
              Some (Ok (mkPackage (Name pOld) (Account p) (Project p) (Tag p)))
          end
      end
  | _ => Some (Err (UnexpectedNumberOfPackages spec))
  end.
Proof.
  intros H. unfold ParsePackage at 1.
  destruct spec as [|a spec]; [discriminate|].
  change (String.length (String a spec)) with (S (String.length spec)).
  cbn [ParsePackageAt]. rewrite H.
  destruct (Split (String a spec) replaceOp) as [|old [|new [|x l]]] eqn:E;
    try reflexivity.
  apply (splitFrom_two _ replaceOp_nonempty) in E as [Hold Hnew].
  now rewrite !ParsePackageAt_regular.
Qed.

(** [ParsePackage] returns on every spec: the bound on the recursion is
    never reached. *)
Lemma ParsePackage_total (spec : string) : exists o, ParsePackage spec = Some o.
Proof.
  destruct (Contains spec replaceOp) eqn:H; [|now apply ParsePackage_regular_total].
  rewrite (ParsePackage_replace _ H).
  destruct (Split spec replaceOp) as [|old [|new [|x l]]] eqn:E; eauto.
  apply (splitFrom_two _ replaceOp_nonempty) in E as [Hold Hnew].
  destruct (ParsePackage_regular_total _ Hold) as [[pOld|err] ->]; eauto.
  destruct (ParsePackage_regular_total _ Hnew) as [[p|err] ->]; eauto.
Qed.

(** C3: a replace spec in which the operator occurs exactly once, both
    sides parsing, gives the name of the old side with the account, the
    project and the tag of the new side; so does, more generally, every spec
    that [Split] cuts into exactly two parts that parse; and in every other
    case, more than two parts or a part that does not parse, [ParsePackage]
    fails. *)
Theorem replace_spec (spec : string) :
  Contains spec replaceOp = true ->
  (forall old new pOld p,
     spec = old ++ replaceOp ++ new ->
     occurrences spec replaceOp = 1 ->
     ParsePackage old = Some (Ok pOld) ->
     ParsePackage new = Some (Ok p) ->
     ParsePackage spec =
     Some (Ok (mkPackage (Name pOld) (Account p) (Project p) (Tag p)))) /\
  (forall old new pOld p,
     Split spec replaceOp = [old; new] ->
     ParsePackage old = Some (Ok pOld) ->
     ParsePackage new = Some (Ok p) ->
     spec = old ++ replaceOp ++ new /\
     ParsePackage spec =
     Some (Ok (mkPackage (Name pOld) (Account p) (Project p) (Tag p)))) /\
  (~ (exists old new pOld p,
        Split spec replaceOp = [old; new] /\
        ParsePackage old = Some (Ok pOld) /\
        ParsePackage new = Some (Ok p)) ->
   exists err, ParsePackage spec = Some (Err err)).
Proof.
  intros H. rewrite (ParsePackage_replace _ H). split; [|split].
  - intros old new pOld p E Honce Hold Hnew. subst spec. unfold Split.
    rewrite (splitFrom_once _ replaceOp_nonempty) by assumption.
    now rewrite Hold, Hnew.
  - intros old new pOld p E Hold Hnew. split.
    + now apply (splitFrom_two_join _ replaceOp_nonempty).
    + now rewrite E, Hold, Hnew.
  - intros Hnot.
    destruct (Split spec replaceOp) as [|old [|new [|x l]]] eqn:E; eauto.
    destruct (ParsePackage_total old) as [[pOld|err] Hold]; rewrite Hold; eauto.
    destruct (ParsePackage_total new) as [[p|err] Hnew]; rewrite Hnew; eauto.
    exfalso. apply Hnot. now exists old, new, pOld, p.
Qed.

Lemma replace_spec_witness :
  ParsePackage "old.example.com/a v1.0.0 => github.com/x/y v1.2.0" =
  Some (Ok (mkPackage "old.example.com/a" "x" "y" "v1.2.0")) /\
  (exists err, ParsePackage "a v1.0.0 => b v1.0.0 => c v1.0.0" = Some (Err err)).
Proof.
  split.
  - destruct (replace_spec "old.example.com/a v1.0.0 => github.com/x/y v1.2.0")
      as [H _]; [reflexivity|].
    apply (H "old.example.com/a v1.0.0" "github.com/x/y v1.2.0"
             (mkPackage "old.example.com/a" "" "" "v1.0.0")
             (mkPackage "github.com/x/y" "x" "y" "v1.2.0")); reflexivity.
  - destruct (replace_spec "a v1.0.0 => b v1.0.0 => c v1.0.0") as [_ [_ H]];
      [reflexivity|].
    apply H. intros (old & new & pOld & p & E & _). discriminate.
Defined.

(** Two operators that share a space are cut once by [Split]: such a spec
    still parses when the right part happens to have two fields. *)
Example overlapping_operators_parse :
  occurrences "a v1.0.0 => => v1.0.0" replaceOp = 2 /\
  ParsePackage "a v1.0.0 => => v1.0.0" = Some (Ok (mkPackage "a" "" "" "v1.0.0")).
Proof. split; reflexivity. Qed.

End ReplaceParsing.

(** ** The grouping key *)

Section Grouping.

Lemma isWord_isKept (a : ascii) : isWord a = isKept a.
Proof.
  unfold isWord, isKept, isAlnum, isLetter.
  destruct (isDigit a), (isUpper a), (isLower a); reflexivity.
Qed.

Lemma isKept_isNotWord (a : ascii) : isKept a = negb (isNotWord a).
Proof. unfold isNotWord. now rewrite negb_involutive, isWord_isKept. Qed.

Lemma collapseFrom_outside (s : string) :
  startsOutside isNotWord s = true -> collapseFrom true s = collapseFrom false s.
Proof.
  destruct s as [|a s]; [reflexivity|]. simpl.
  rewrite isKept_isNotWord. now intros ->.
Qed.

Lemma collapseFrom_word (w t : string) :
  allb isWord w = true -> collapseFrom false (w ++ t) = w ++ collapseFrom false t.
Proof.
  induction w as [|a w IH]; [reflexivity|].
  rewrite allb_cons, andb_true_iff, isWord_isKept. intros [Ha Hw].
  simpl. now rewrite Ha, IH.
Qed.

Lemma collapseFrom_run_rest (x rest : string) :
  allb isNotWord x = true -> startsOutside isNotWord rest = true ->
  collapseFrom true (x ++ rest) = collapseFrom false rest.
Proof.
  intros Hx Hrest. induction x as [|a x IH]; [now apply collapseFrom_outside|].
  rewrite allb_cons in Hx. apply andb_true_iff in Hx as [Ha Hx].
  simpl. rewrite isKept_isNotWord, Ha. simpl. auto.
Qed.

Lemma collapseFrom_run (x rest : string) :
  allb isNotWord x = true -> x <> "" -> startsOutside isNotWord rest = true ->
  collapseFrom false (x ++ rest) = "_" ++ collapseFrom false rest.
Proof.
  intros Hx Hne Hrest. destruct x as [|a x]; [congruence|].
  rewrite allb_cons in Hx. apply andb_true_iff in Hx as [Ha Hx].
  simpl. rewrite isKept_isNotWord, Ha. simpl. f_equal.
  now apply collapseFrom_run_rest.
Qed.

Lemma exec_groupRe_run (x rest : string) (pos : nat) :
  allb isNotWord x = true -> x <> "" -> startsOutside isNotWord rest = true ->
  exec groupRe accept pos (x ++ rest) [] = Some (pos + String.length x, rest, []).
Proof.
  intros Hx Hne Hrest. unfold groupRe. rewrite exec_Plus_Class.
  now apply greedy_run.
Qed.

Lemma search_groupRe_word (w t : string) (pos : nat) :
  allb isWord w = true ->
  search groupRe pos (w ++ t) = search groupRe (pos + String.length w) t.
Proof.
  revert pos. induction w as [|a w IH]; intros pos Hw.
  - simpl. now rewrite Nat.add_0_r.
  - rewrite allb_cons in Hw. apply andb_true_iff in Hw as [Ha Hw].
    change (String a w ++ t) with (String a (w ++ t)).
    cbn [search]. unfold groupRe at 1. rewrite exec_Plus_Class.
    rewrite greedy_outside by (simpl; unfold isNotWord; now rewrite Ha).
    rewrite IH by assumption. f_equal. simpl. lia.
Qed.

Lemma search_groupRe_run (x rest : string) (pos : nat) :
  allb isNotWord x = true -> x <> "" -> startsOutside isNotWord rest = true ->
  search groupRe pos (x ++ rest) = Some (pos, pos + String.length x, rest, []).
Proof.
  intros Hx Hne Hrest.
  destruct (x ++ rest) eqn:E; cbn [search]; rewrite <- E;
    now rewrite exec_groupRe_run.
Qed.

Lemma span_nonempty (p : ascii -> bool) (s : string) :
  s <> "" -> startsOutside (fun a => negb (p a)) s = true -> fst (span p s) <> "".
Proof.
  destruct s as [|a s]; [congruence|]. simpl.
  rewrite negb_involutive. intros _ ->. discriminate.
Qed.

(** The loop of [ReplaceAllString] with [groupRe] and an underscore does
    what the specification says. *)
Lemma replaceAll_groupRe (fuel : nat) :
  forall (s : string) (pos last : nat),
    String.length s < fuel -> last <= pos ->
    replaceAll groupRe "_" fuel pos s last "" = collapseFrom false s.
Proof.
  induction fuel as [|fuel IH]; intros s pos last Hlen Hlast; [lia|].
  destruct (span_spec isWord s) as (Es & Hw & Ht).
  destruct (span isWord s) as [w t]. cbn [fst snd] in *. subst s.
  cbn [replaceAll]. rewrite search_groupRe_word by assumption.
  destruct t as [|b t'].
  - cbn [search]. unfold groupRe at 1. rewrite exec_Plus_Class. cbn [greedy].
    now rewrite collapseFrom_word.
  - destruct (span_spec isNotWord (String b t')) as (Et & Hx & Hrest).
    assert (Hne : fst (span isNotWord (String b t')) <> "").
    { apply span_nonempty; [discriminate|].
      simpl in *. unfold isNotWord. now rewrite negb_involutive. }
    destruct (span isNotWord (String b t')) as [x rest]. cbn [fst snd] in *.
    rewrite Et in *. clear Et Ht.
    rewrite search_groupRe_run by assumption.
    assert (Hx0 : 0 < String.length x) by (destruct x; [congruence|simpl; lia]).
    replace (last <? pos + String.length w + String.length x) with true
      by (symmetry; apply Nat.ltb_lt; lia).
    replace (pos + String.length w + String.length x =? pos) with false
      by (symmetry; apply Nat.eqb_neq; lia).
    replace (pos + String.length w - pos) with (String.length w) by lia.
    rewrite substring_0_append, IH.
    + rewrite collapseFrom_word by assumption. now rewrite collapseFrom_run.
    + rewrite !length_append in Hlen. lia.
    + lia.
Qed.

Lemma ReplaceAll_groupRe (s : string) :
  ReplaceAllString groupRe s "_" = collapseRuns s.
Proof. apply replaceAll_groupRe; lia. Qed.

(** What [Group] hands to [strings.ToLower] is made of ASCII letters,
    digits and underscores. *)
Lemma collapseFrom_word_only (inRun : bool) (s : string) :
  allb isWord (collapseFrom inRun s) = true.
Proof.
  revert inRun. induction s as [|a s IH]; intros inRun; [reflexivity|].
  simpl. destruct (isKept a) eqn:Ha.
  - now rewrite allb_cons, isWord_isKept, Ha, IH.
  - destruct inRun; [apply IH|]. now rewrite allb_cons, IH.
Qed.

Lemma ReplaceAll_groupRe_word (s : string) :
  allb isWord (ReplaceAllString groupRe s "_") = true.
Proof. rewrite ReplaceAll_groupRe. apply collapseFrom_word_only. Qed.

(** C9: [Group] is the lowercasing of account, underscore and project with
    every maximal run of characters that are not a letter, a digit or an
    underscore replaced by a single underscore; the account [Foo.Bar] and
    the project [Baz] give [foo_bar_baz]. *)
Theorem Group_collapses_runs :
  (forall p : Package,
     Group p = ToLower (collapseRuns (Account p ++ "_" ++ Project p))) /\
  (forall name tag : string, Group (mkPackage name "Foo.Bar" "Baz" tag) = "foo_bar_baz").
Proof.
  split.
  - intros p. unfold Group. now rewrite ReplaceAll_groupRe.
  - reflexivity.
Qed.

End Grouping.

(** ** The output of [main] *)

Section Output.

Variable packagePrefix : string.


Lemma printParsed_lines (pp : list Package) (i : nat) :
  printParsed packagePrefix (i + List.length pp - 1) i pp =
  String.concat "" (tupleBlock packagePrefix pp).
Proof.
  revert i. induction pp as [|p pp IH]; intros i; [reflexivity|].
  cbn [printParsed]. destruct pp as [|q pp].
  - cbn [List.length tupleBlock String.concat printParsed].
    replace (i <? i + 1 - 1) with false by (symmetry; apply Nat.ltb_ge; lia).
    unfold tupleLine. reflexivity.
  - replace (i + List.length (p :: q :: pp) - 1) with (S i + List.length (q :: pp) - 1)
      by (simpl; lia).
    rewrite IH.
    replace (i <? S i + List.length (q :: pp) - 1) with true
      by (symmetry; apply Nat.ltb_lt; simpl; lia).
    set (rest := tupleBlock packagePrefix (q :: pp)).
    assert (Hrest : rest <> []) by (unfold rest; destruct pp; discriminate).
    change (tupleBlock packagePrefix (p :: q :: pp))
      with (tupleLine packagePrefix false p :: rest).
    cbn [String.concat]. destruct rest as [|l rest']; [congruence|].
    unfold tupleLine. now rewrite !append_assoc.
Qed.

Lemma concat_app (l1 l2 : list string) :
  String.concat "" (l1 ++ l2) = String.concat "" l1 ++ String.concat "" l2.
Proof.
  induction l1 as [|a l1 IH]; [reflexivity|].
  destruct l1 as [|b l1].
  - cbn [app String.concat]. destruct l2 as [|c l2].
    + now rewrite append_nil_r.
    + reflexivity.
  - change ((a :: b :: l1) ++ l2)%list with (a :: (b :: l1) ++ l2)%list.
    change ((b :: l1) ++ l2)%list with (b :: l1 ++ l2)%list in *.
    cbn [String.concat] in *. rewrite IH. cbn [append]. now rewrite !append_assoc.
Qed.

Lemma printUnparsed_lines (pp : list Package) :
  printUnparsed packagePrefix pp = String.concat "" (map (commentLine packagePrefix) pp).
Proof.
  induction pp as [|p pp IH]; [reflexivity|].
  cbn [printUnparsed map]. rewrite IH.
  change (commentLine packagePrefix p :: map (commentLine packagePrefix) pp)
    with ([commentLine packagePrefix p] ++ map (commentLine packagePrefix) pp)%list.
  rewrite concat_app. unfold commentLine. cbn [String.concat].
  now rewrite !append_assoc.
Qed.

Lemma printTuple_lines (parsedPackages unparsedPackages : list Package) :
  printTuple packagePrefix parsedPackages unparsedPackages =
  String.concat ""
    (headerLine :: tupleBlock packagePrefix parsedPackages ++
                   map (commentLine packagePrefix) unparsedPackages).
Proof.
  unfold printTuple.
  pose proof (printParsed_lines parsedPackages 0) as Hp. cbn [Nat.add] in Hp.
  rewrite Hp, printUnparsed_lines.
  change (headerLine :: tupleBlock packagePrefix parsedPackages ++
                        map (commentLine packagePrefix) unparsedPackages)%list
    with ([headerLine] ++ (tupleBlock packagePrefix parsedPackages ++
                        map (commentLine packagePrefix) unparsedPackages))%list.
  rewrite !concat_app. unfold headerLine. cbn [String.concat].
  now rewrite !append_assoc.
Qed.

(** *** The order of Go strings *)

Lemma ltb_false_leb (s t : string) : (t <? s)%string = false -> (s <=? t)%string = true.
Proof.
  unfold String.ltb, String.leb. rewrite (String.compare_antisym s t).
  destruct (String.compare t s); simpl; congruence.
Qed.

Lemma ascii_compare_trans (a b c : ascii) :
  Ascii.compare a b = Lt -> Ascii.compare b c = Lt -> Ascii.compare a c = Lt.
Proof.
  unfold Ascii.compare. rewrite !N.compare_lt_iff. apply N.lt_trans.
Qed.

Lemma string_leb_trans (s t u : string) :
  (s <=? t)%string = true -> (t <=? u)%string = true -> (s <=? u)%string = true.
Proof.
  unfold String.leb.
  revert t u. induction s as [|a s IH]; intros [|b t] [|c u]; simpl; try congruence.
  destruct (Ascii.compare a b) eqn:Hab; try congruence;
    destruct (Ascii.compare b c) eqn:Hbc; try congruence.
  - apply Ascii.compare_eq_iff in Hab, Hbc. subst.
    replace (Ascii.compare c c) with Eq
      by (symmetry; unfold Ascii.compare; apply N.compare_refl).
    apply IH.
  - apply Ascii.compare_eq_iff in Hab. subst. now rewrite Hbc.
  - apply Ascii.compare_eq_iff in Hbc. subst. now rewrite Hab.
  - now rewrite (ascii_compare_trans _ _ _ Hab Hbc).
Qed.

Lemma IsSorted_rendered (pp : list Package) :
  IsSorted packagePrefix pp ->
  StronglySorted (fun s t => (s <=? t)%string = true)
                 (map (PackageString packagePrefix) pp).
Proof.
  intros H. apply Sorted_StronglySorted.
  - intros s t u. apply string_leb_trans.
  - induction H as [|p pp Hs IH Hd]; [constructor|].
    cbn [map]. constructor; [exact IH|].
    destruct Hd as [|q pp Hq]; constructor.
    now apply ltb_false_leb.
Qed.




End Output.


(** * Further properties *)

(** ** The versions [ParsePackage] accepts *)

Section AcceptedVersions.

Lemma incompatible_tail_inv (pos : nat) (s : string) (c : caps) (y : result) :
  exec (Quest (Lit "+incompatible") ;; EndText)%re accept pos s c = Some y ->
  exists incompatible, s = incompatibleText incompatible.
Proof.
  intros H. rewrite exec_Cat in H. apply exec_Quest_inv in H as [H|H].
  - apply exec_Lit_inv in H as (s1 & -> & H).
    apply exec_EndText_inv in H as [-> _]. now exists true.
  - apply exec_EndText_inv in H as [-> _]. now exists false.
Qed.

Lemma isAlnumDotHyphen_run (x y : string) :
  allb isAlnum x = true -> allb isAlnumDotHyphen y = true ->
  allb isAlnumDotHyphen (x ++ y) = true.
Proof.
  intros Hx Hy. rewrite allb_append, Hy, andb_true_r.
  revert Hx. apply allb_impl, isAlnum_isAlnumDotHyphen.
Qed.

(** [versionRx] matches semantic versions only. *)
Lemma versionRx_sound (version : string) :
  MatchString versionRx version = true -> semanticVersion version.
Proof.
  unfold versionRx. rewrite MatchString_anchored.
  destruct (exec _ accept 0 version []) as [y|] eqn:H; [intros _|discriminate].
  rewrite exec_Cat, exec_Capture in H.
  rewrite exec_Cat in H. apply exec_Lit_inv in H as (s1 & E1 & H).
  rewrite exec_Cat in H.
  apply exec_Plus_Class_inv in H as (major & s2 & -> & Hne1 & Hmaj & H).
  rewrite exec_Cat in H. apply exec_Lit_inv in H as (s3 & -> & H).
  rewrite exec_Cat in H.
  apply exec_Plus_Class_inv in H as (minor & s4 & -> & Hne2 & Hmin & H).
  rewrite exec_Cat in H. apply exec_Lit_inv in H as (s5 & -> & H).
  rewrite exec_Cat in H.
  apply exec_Plus_Class_inv in H as (patch & s6 & -> & Hne3 & Hpat & H).
  assert (Hcore : isCore major minor patch = true).
  { unfold isCore. now rewrite !number_of. }
  subst version.
  apply exec_Quest_inv in H as [H|H].
  - rewrite exec_Cat in H. apply exec_Lit_inv in H as (s7 & -> & H).
    rewrite exec_Cat in H.
    apply exec_Plus_Class_inv in H as (x & s8 & -> & Hx0 & Hx & H).
    apply exec_Plus_Class_inv in H as (z & s9 & -> & Hz0 & Hz & H).
    cbv beta in H. apply incompatible_tail_inv in H as [incompatible ->].
    exists major, minor, patch, (Some (x ++ z)), incompatible.
    split; [assumption|]. split.
    + destruct x as [|a x]; [congruence|].
      rewrite allb_cons in Hx. apply andb_true_iff in Hx as [Ha Hx].
      cbn [append isPrerelease]. rewrite Ha, (isAlnumDotHyphen_run _ _ Hx Hz).
      rewrite length_append. destruct z; [congruence|].
      apply Nat.leb_le. simpl. lia.
    + unfold semverText, coreText, prereleaseText. now rewrite !append_assoc.
  - cbv beta in H. apply incompatible_tail_inv in H as [incompatible ->].
    exists major, minor, patch, None, incompatible.
    split; [assumption|]. split; [reflexivity|].
    unfold semverText, coreText, prereleaseText. now rewrite !append_assoc.
Qed.

(** The tag of a version, by the form of the version. *)
Lemma parseVersion_inv (version tag : string) :
  parseVersion version = Some tag ->
  (exists major minor patch n timestamp commit,
     isPseudoVersion 8 major minor patch n timestamp commit = true /\
     version = pseudoVersionText major minor patch n timestamp commit /\
     tag = substring 0 7 commit) \/
  (exists major minor patch pre incompatible,
     isCore major minor patch = true /\ isPrerelease 2 pre = true /\
     version = semverText major minor patch pre incompatible /\
     tag = semverText major minor patch pre false).
Proof.
  intros H. destruct (MatchString tagRx version) eqn:Ht.
  - left. apply tagRx_sound in Ht as (major & minor & patch & n & ts & commit & Hs & ->).
    rewrite parseVersion_pseudoVersion in H by assumption. injection H as <-.
    now exists major, minor, patch, n, ts, commit.
  - right. destruct (MatchString versionRx version) eqn:Hv.
    + apply not_pseudoVersion in Ht.
      apply versionRx_sound in Hv as (major & minor & patch & pre & inc & Hc & Hp & ->).
      rewrite parseVersion_semver in H by assumption. injection H as <-.
      now exists major, minor, patch, pre, inc.
    + unfold parseVersion in H. rewrite Ht, Hv in H. discriminate.
Qed.

Lemma parseVersion_accepts (version : string) :
  pseudoVersion 8 version \/ semanticVersion version ->
  exists tag, parseVersion version = Some tag.
Proof.
  intros H. destruct (MatchString tagRx version) eqn:Ht.
  - apply tagRx_sound in Ht as (major & minor & patch & n & ts & commit & Hs & ->).
    rewrite parseVersion_pseudoVersion by assumption. eauto.
  - apply not_pseudoVersion in Ht. destruct H as [H|H]; [contradiction|].
    destruct H as (major & minor & patch & pre & inc & Hc & Hp & ->).
    rewrite parseVersion_semver by assumption. eauto.
Qed.

(** X1: on a plain spec whose name resolves, [ParsePackage] returns the
    error of an unexpected version exactly when the version is neither a
    pseudo-version (with a commit of 8 or more characters) nor a semantic
    version (with a prerelease of 2 or more characters), and a package in
    every other case. *)
Theorem unexpected_version_iff (spec name version account project : string) :
  plainSpec spec name version ->
  parseName name = inr (account, project) ->
  (ParsePackage spec = Some (Err (UnexpectedVersion version)) <->
   ~ pseudoVersion 8 version /\ ~ semanticVersion version) /\
  (pseudoVersion 8 version \/ semanticVersion version ->
   exists tag, ParsePackage spec = Some (Ok (mkPackage name account project tag))).
Proof.
  intros Hspec Hname. rewrite (ParsePackage_plain _ _ _ Hspec), Hname. split.
  - split.
    + intros H. split; intros Hv.
      * destruct (parseVersion_accepts version (or_introl Hv)) as [tag Ht].
        rewrite Ht in H. discriminate.
      * destruct (parseVersion_accepts version (or_intror Hv)) as [tag Ht].
        rewrite Ht in H. discriminate.
    + intros [Hp Hs]. destruct (parseVersion version) as [tag|] eqn:Ht; [|reflexivity].
      exfalso. apply parseVersion_inv in Ht as [Ht|Ht].
      * destruct Ht as (major & minor & patch & n & ts & commit & H1 & H2 & _).
        apply Hp. now exists major, minor, patch, n, ts, commit.
      * destruct Ht as (major & minor & patch & pre & inc & H1 & H2 & H3 & _).
        apply Hs. now exists major, minor, patch, pre, inc.
  - intros H. destruct (parseVersion_accepts version H) as [tag ->]. eauto.
Qed.

Lemma unexpected_version_iff_witness :
  ParsePackage "x 1.2.3" = Some (Err (UnexpectedVersion "1.2.3")) /\
  (exists tag, ParsePackage "x v1.2.3-beta" = Some (Ok (mkPackage "x" "" "" tag))).
Proof.
  split.
  - apply (unexpected_version_iff "x 1.2.3" "x" "1.2.3" "" "");
      [split; reflexivity|reflexivity|].
    split.
    + apply not_pseudoVersion. reflexivity.
    + intros H. pose proof (parseVersion_accepts "1.2.3" (or_intror H)) as [tag Ht].
      discriminate.
  - apply (unexpected_version_iff "x v1.2.3-beta" "x" "v1.2.3-beta" "" "");
      [split; reflexivity|reflexivity|].
    right. exists "1", "2", "3", (Some "beta"), false. repeat split.
Defined.

End AcceptedVersions.

(** ** What a parsed package is made of *)

Section ParsedPackages.

Lemma spaceWidth_prefix (a : ascii) (x y : string) :
  spaceWidth (String a (x ++ y)) = 0 -> spaceWidth (String a x) = 0.
Proof.
  destruct x as [|b [|c x]]; cbn [spaceWidth append];
    destruct (isASCIISpace a); try discriminate; try trivial.
  destruct y as [|c y]; [trivial|].
  destruct ((code a =? 194) && ((code b =? 133) || (code b =? 160)));
    [discriminate|trivial].
Qed.

Lemma fieldsFrom_prefix (s : string) :
  exists rest, s = fst (fieldsFrom 0 s) ++ rest.
Proof.
  induction s as [|a s [rest IH]]; [now exists ""|].
  cbn [fieldsFrom]. destruct (spaceWidth (String a s)).
  - exists rest. cbn [fst append]. now rewrite <- IH.
  - now exists (String a s).
Qed.

Lemma flush_tokens (wl : string * list string) :
  noSpace (fst wl) = true -> Forall (fun f => isToken f = true) (snd wl) ->
  Forall (fun f => isToken f = true) (flush wl).
Proof.
  destruct wl as [w l]. unfold flush. cbn [fst snd]. intros Hw Hl.
  destruct w as [|a w]; [assumption|]. constructor; [|assumption].
  unfold isToken. now rewrite Hw.
Qed.

Lemma fieldsFrom_tokens (s : string) :
  forall skip,
    noSpace (fst (fieldsFrom skip s)) = true /\
    Forall (fun f => isToken f = true) (snd (fieldsFrom skip s)).
Proof.
  induction s as [|a s IH]; intros skip; [split; [reflexivity|constructor]|].
  cbn [fieldsFrom]. destruct skip as [|skip]; [|apply IH].
  destruct (spaceWidth (String a s)) as [|n] eqn:Hw.
  - destruct (IH 0) as [H1 H2]. cbn [fst snd]. split; [|assumption].
    cbn [noSpace]. rewrite H1, andb_true_r. apply Nat.eqb_eq.
    destruct (fieldsFrom_prefix s) as [rest E]. rewrite E in Hw.
    now apply spaceWidth_prefix in Hw.
  - cbn [fst snd]. split; [reflexivity|].
    destruct (IH n) as [H1 H2]. now apply flush_tokens.
Qed.

(** Every field is non-empty and free of white space. *)
Lemma Fields_are_tokens (s : string) : Forall (fun f => isToken f = true) (Fields s).
Proof. unfold Fields. destruct (fieldsFrom_tokens s 0). now apply flush_tokens. Qed.

(** A package comes from a regular spec, or from the two regular sides of a
    replace spec. *)
Lemma ParsePackage_regular_Ok (spec : string) (p : Package) :
  Contains spec replaceOp = false -> ParsePackage spec = Some (Ok p) ->
  exists version,
    Fields spec = [Name p; version] /\
    parseName (Name p) = inr (Account p, Project p) /\
    parseVersion version = Some (Tag p).
Proof.
  intros Hc H. rewrite <- (ParsePackageAt_regular 0 spec Hc) in H.
  cbn [ParsePackageAt] in H. rewrite Hc in H.
  destruct (Fields spec) as [|name [|version [|x l]]]; try discriminate.
  destruct (parseName name) as [err|[account project]] eqn:Hn; [discriminate|].
  destruct (parseVersion version) as [tag|] eqn:Hv; [|discriminate].
  injection H as <-. now exists version.
Qed.

Lemma ParsePackage_Ok_inv (spec : string) (p : Package) :
  ParsePackage spec = Some (Ok p) ->
  exists old new pOld pNew,
    Contains old replaceOp = false /\ ParsePackage old = Some (Ok pOld) /\
    Contains new replaceOp = false /\ ParsePackage new = Some (Ok pNew) /\
    p = mkPackage (Name pOld) (Account pNew) (Project pNew) (Tag pNew).
Proof.
  intros H. destruct (Contains spec replaceOp) eqn:Hc.
  - rewrite (ParsePackage_replace _ Hc) in H.
    destruct (Split spec replaceOp) as [|old [|new [|x l]]] eqn:E; try discriminate.
    apply (splitFrom_two _ replaceOp_nonempty) in E as [Hold Hnew].
    destruct (ParsePackage old) as [[pOld|err]|] eqn:Ho; try discriminate.
    destruct (ParsePackage new) as [[pNew|err]|] eqn:Hn; try discriminate.
    injection H as <-. now exists old, new, pOld, pNew.
  - exists spec, spec, p, p. destruct p. auto.
Qed.

Lemma allb_substring_0 (p : ascii -> bool) (n : nat) (s : string) :
  n <= String.length s -> allb p s = true -> allb p (substring 0 n s) = true.
Proof.
  intros Hn Hs. rewrite (substring_split n s Hn), allb_append in Hs.
  now apply andb_true_iff in Hs as [Hs _].
Qed.

(** X2: the name of a parsed package is a non-empty string without white
    space, and its tag is either 7 lowercase hexadecimal characters or a
    semantic version without [+incompatible]; this holds for replace specs
    as well. *)
Theorem parsed_name_and_tag (spec : string) (p : Package) :
  ParsePackage spec = Some (Ok p) ->
  isToken (Name p) = true /\
  ((String.length (Tag p) = 7 /\ allb isLowerHex (Tag p) = true) \/
   (exists major minor patch pre,
      isCore major minor patch = true /\ isPrerelease 2 pre = true /\
      Tag p = semverText major minor patch pre false)).
Proof.
  intros H.
  apply ParsePackage_Ok_inv in H as (old & new & pOld & pNew & Ho & Hold & Hn & Hnew & ->).
  cbn [Name Tag].
  apply (ParsePackage_regular_Ok _ _ Ho) in Hold as (vOld & Hf & _ & _).
  apply (ParsePackage_regular_Ok _ _ Hn) in Hnew as (vNew & _ & _ & Hv).
  split.
  - pose proof (Fields_are_tokens old) as Ht. rewrite Hf in Ht.
    now inversion Ht.
  - apply parseVersion_inv in Hv as [Hv|Hv].
    + left. destruct Hv as (major & minor & patch & n & ts & commit & Hs & _ & ->).
      unfold isPseudoVersion in Hs. rewrite !andb_true_iff in Hs.
      destruct Hs as [[_ Hlen] Hhex]. apply Nat.leb_le in Hlen. split.
      * apply substring_0_length. lia.
      * apply allb_substring_0; [lia|assumption].
    + right. destruct Hv as (major & minor & patch & pre & inc & Hc & Hp & _ & ->).
      now exists major, minor, patch, pre.
Qed.

Lemma parsed_name_and_tag_witness :
  isToken "old.example.com/a" = true /\
  ((String.length "e0a95df" = 7 /\ allb isLowerHex "e0a95df" = true) \/
   (exists major minor patch pre,
      isCore major minor patch = true /\ isPrerelease 2 pre = true /\
      "e0a95df" = semverText major minor patch pre false)).
Proof.
  apply (parsed_name_and_tag
           "old.example.com/a v1.0.0 => github.com/x/y v0.0.0-20181001143604-e0a95dfd547c"
           (mkPackage "old.example.com/a" "x" "y" "e0a95df")).
  reflexivity.
Defined.

(** *** Accounts and projects *)

Lemma countSlash_append (s t : string) :
  countSlash (s ++ t) = countSlash s + countSlash t.
Proof. induction s as [|a s IH]; simpl; [reflexivity|]. rewrite IH. lia. Qed.

Lemma countSlash_class (p : ascii -> bool) (s : string) :
  p "/"%char = false -> allb p s = true -> countSlash s = 0.
Proof.
  intros Hp. induction s as [|a s IH]; [reflexivity|].
  rewrite allb_cons, andb_true_iff. intros [Ha Hs]. cbn [countSlash].
  rewrite (IH Hs). destruct (Ascii.eqb_spec a "/") as [->|]; [congruence|reflexivity].
Qed.

Lemma countSlash_pkgName (s : string) : isPkgName s = true -> countSlash s = 0.
Proof.
  intros H. apply isPkgName_spec in H as (a & r & -> & Ha & _ & Hr).
  apply (countSlash_class isAlnumHyphen); [reflexivity|].
  rewrite allb_cons, Hr. unfold isAlnumHyphen. rewrite Ha. now rewrite orb_true_r.
Qed.

(** The pieces of a name cut at its slashes have no slash. *)
Lemma Split_slash_pieces (s : string) :
  Forall (fun x => countSlash x = 0) (Split s "/").
Proof.
  unfold Split. induction s as [|a s IH]; [repeat constructor|].
  cbn [splitFrom HasPrefix String.length Nat.sub].
  rewrite HasPrefix_nil, andb_true_r.
  destruct (Ascii.eqb_spec "/" a) as [<-|Hne].
  - constructor; [reflexivity|exact IH].
  - destruct (splitFrom "/" 0 s) as [|h t]; cbn [consHead].
    + constructor; [|constructor]. cbn [countSlash].
      destruct (Ascii.eqb_spec a "/"); [congruence|reflexivity].
    + inversion IH as [|? ? Hh Ht]; subst. constructor; [|assumption].
      cbn [countSlash]. rewrite Hh.
      destruct (Ascii.eqb_spec a "/"); [congruence|reflexivity].
Qed.

(** The pieces are one more than the slashes. *)
Lemma Split_slash_length (s : string) :
  List.length (Split s "/") = S (countSlash s).
Proof.
  unfold Split. induction s as [|a s IH]; [reflexivity|].
  cbn [splitFrom HasPrefix String.length Nat.sub countSlash].
  rewrite HasPrefix_nil, andb_true_r, (Ascii.eqb_sym a "/").
  destruct (Ascii.eqb "/" a).
  - cbn [List.length]. now rewrite IH.
  - destruct (splitFrom "/" 0 s) as [|h t]; cbn [consHead List.length] in *; lia.
Qed.

(** What the patterns of [gopkg.in] and [golang.org] give: nothing, or a
    project name with its account. *)
Lemma parseGopkgInPackage_cases (name : string) :
  parseGopkgInPackage name = ("", "") \/
  exists account project,
    gopkgInForm name account project /\ parseGopkgInPackage name = (account, project).
Proof.
  destruct (exec (Lit "gopkg.in/" ;;
        Capture 1 (Class isAlnum ;; Plus (Class isAlnumHyphen)) ;;
        Quest (Lit ".v" ;; Plus (Class isNotNewline)) ;;
        Quest (Lit "/" ;;
               Capture 2 (Class isAlnum ;; Plus (Class isAlnumHyphen)) ;;
               (Lit ".v" ;; Plus (Class isNotNewline))) ;;
        EndText)%re accept 0 name []) as [y|] eqn:H.
  - right. apply gopkgInRx_sound in H as (account & project & H).
    exists account, project. split; [assumption|].
    now apply parseGopkgInPackage_form.
  - left. unfold parseGopkgInPackage, gopkgInRx. now rewrite FindAll_anchored_none.
Qed.

Lemma parseGolangOrgPackage_cases (name : string) :
  parseGolangOrgPackage name = ("", "") \/
  exists pkg, isPkgName pkg = true /\ parseGolangOrgPackage name = ("golang", pkg).
Proof.
  destruct (exec (Lit "golang.org/x/" ;;
                  Capture 1 (Class isAlnum ;; Plus (Class isAlnumHyphen)) ;; EndText)%re
                 accept 0 name []) as [y|] eqn:H.
  - right. apply golangOrgRx_sound in H as (pkg & Hpkg & ->).
    exists pkg. split; [assumption|]. now apply parseGolangOrgPackage_form.
  - left. unfold parseGolangOrgPackage, golangOrgRx. now rewrite FindAll_anchored_none.
Qed.

Lemma gopkgInForm_names (name account project : string) :
  gopkgInForm name account project ->
  isPkgName project = true /\
  (account = "go-" ++ project \/ isPkgName account = true).
Proof. intros [pkg ver H1 H2|user pkg ver H1 H2 H3|pkg H1]; auto. Qed.

(** X3: the patterns of [gopkg.in] and [golang.org] never resolve a name by
    half: they give an empty account with an empty project, or a project
    that is an alphanumeric followed by alphanumerics or hyphens, with the
    account [go-<project>], another such name, or [golang]. *)
Theorem pattern_results (name : string) :
  (parseGopkgInPackage name = ("", "") \/
   exists account project,
     parseGopkgInPackage name = (account, project) /\
     isPkgName project = true /\
     (account = "go-" ++ project \/ isPkgName account = true)) /\
  (parseGolangOrgPackage name = ("", "") \/
   exists project,
     parseGolangOrgPackage name = ("golang", project) /\ isPkgName project = true).
Proof.
  split.
  - destruct (parseGopkgInPackage_cases name) as [H|(account & project & Hf & H)];
      [now left|right].
    exists account, project. split; [assumption|]. now apply gopkgInForm_names in Hf.
  - destruct (parseGolangOrgPackage_cases name) as [H|(pkg & Hpkg & H)];
      [now left|right]. now exists pkg.
Qed.

Lemma lookup_In (m : list (string * WellKnown)) (name : string) (wk : WellKnown) :
  lookup m name = Some wk -> In (name, wk) m.
Proof.
  induction m as [|[k v] m IH]; [discriminate|]. cbn [lookup].
  destruct (String.eqb_spec k name) as [->|_].
  - intros [= ->]. now left.
  - intros H. right. auto.
Qed.

Lemma wellKnownPackages_no_slash :
  Forall (fun e => countSlash (wkAccount (snd e)) = 0 /\ countSlash (wkProject (snd e)) = 0)
         wellKnownPackages.
Proof. repeat constructor. Qed.

Lemma parseName_no_slash (name account project : string) :
  parseName name = inr (account, project) ->
  countSlash account = 0 /\ countSlash project = 0.
Proof.
  unfold parseName. destruct (lookup wellKnownPackages name) as [wk|] eqn:Hwk.
  - intros [= <- <-]. apply lookup_In in Hwk.
    pose proof wellKnownPackages_no_slash as H.
    rewrite Forall_forall in H. apply (H _ Hwk).
  - destruct (HasPrefix name "github.com").
    { pose proof (Split_slash_pieces name) as H.
      destruct (Split name "/") as [|s0 [|s1 [|s2 l]]]; try discriminate.
      intros [= <- <-]. inversion H as [|? ? _ H1]; subst.
      inversion H1 as [|? ? Ha H2]; subst. inversion H2 as [|? ? Hp _]; subst. auto. }
    destruct (HasPrefix name "gopkg.in").
    { destruct (parseGopkgInPackage_cases name) as [->|(a & p & Hf & ->)];
        intros [= <- <-]; [auto|].
      apply gopkgInForm_names in Hf as [Hp [->|Ha]].
      - now rewrite countSlash_append, (countSlash_pkgName _ Hp).
      - now rewrite (countSlash_pkgName _ Hp), (countSlash_pkgName _ Ha). }
    destruct (HasPrefix name "golang.org").
    { destruct (parseGolangOrgPackage_cases name) as [->|(p & Hp & ->)];
        intros [= <- <-]; [auto|].
      now rewrite (countSlash_pkgName _ Hp). }
    intros [= <- <-]. auto.
Qed.

(** X4: whatever the spec, the account and the project of a parsed package
    have no slash: they are one segment each. *)
Theorem parsed_account_project_no_slash (spec : string) (p : Package) :
  ParsePackage spec = Some (Ok p) ->
  countSlash (Account p) = 0 /\ countSlash (Project p) = 0.
Proof.
  intros H.
  apply ParsePackage_Ok_inv in H as (old & new & pOld & pNew & _ & _ & Hn & Hnew & ->).
  cbn [Account Project].
  apply (ParsePackage_regular_Ok _ _ Hn) in Hnew as (v & _ & Hname & _).
  now apply parseName_no_slash in Hname.
Qed.

Lemma parsed_account_project_no_slash_witness :
  countSlash "foo" = 0 /\ countSlash "bar" = 0.
Proof.
  apply (parsed_account_project_no_slash "github.com/foo/bar/baz/v2 v2.0.1"
           (mkPackage "github.com/foo/bar/baz/v2" "foo" "bar" "v2.0.1")).
  reflexivity.
Defined.

(** X5: name resolution fails on the names that start with [github.com]
    and have fewer than two slashes, with the error of a malformed Github
    name, and on no other name. *)
Theorem parseName_fails_iff (name : string) (err : error) :
  parseName name = inl err <->
  HasPrefix name "github.com" = true /\ countSlash name < 2 /\
  err = UnexpectedGithubName name.
Proof.
  split.
  - unfold parseName. destruct (lookup wellKnownPackages name) as [wk|] eqn:Hwk;
      [discriminate|].
    destruct (HasPrefix name "github.com") eqn:Hp.
    + pose proof (Split_slash_length name) as Hl.
      destruct (Split name "/") as [|s0 [|s1 [|s2 l]]]; try discriminate;
        intros [= <-]; simpl in Hl; repeat split; lia.
    + destruct (HasPrefix name "gopkg.in"); [discriminate|].
      destruct (HasPrefix name "golang.org"); discriminate.
  - intros (Hp & Hc & ->). rewrite (parseName_github _ Hp).
    pose proof (Split_slash_length name) as Hl.
    destruct (Split name "/") as [|s0 [|s1 [|s2 l]]]; try reflexivity.
    simpl in Hl. lia.
Qed.

End ParsedPackages.

(** ** Specs as lists of tokens *)

Section TokenSpecs.

Lemma isToken_spec (s : string) : isToken s = true -> s <> "" /\ noSpace s = true.
Proof.
  unfold isToken. rewrite andb_true_iff, negb_true_iff, String.eqb_neq. tauto.
Qed.

(** Tokens joined by single spaces are the fields of the text they make. *)
Lemma Fields_join (ts : list string) :
  Forall (fun t => isToken t = true) ts -> Fields (String.concat " " ts) = ts.
Proof.
  induction ts as [|t ts IH]; intros H; [reflexivity|].
  inversion H as [|? ? Ht Hts]; subst.
  apply isToken_spec in Ht as [Hne Hns].
  destruct ts as [|t' ts].
  - cbn [String.concat]. unfold Fields. rewrite fieldsFrom_noSpace by assumption.
    destruct t; [congruence|reflexivity].
  - specialize (IH Hts).
    change (String.concat " " (t :: t' :: ts))
      with (t ++ " " ++ String.concat " " (t' :: ts)).
    unfold Fields in *. rewrite fieldsFrom_space, IH by assumption.
    destruct t; [congruence|reflexivity].
Qed.

(** X6: a spec made of tokens separated by single spaces, the replace
    operator not among them, parses as a regular spec when the tokens are
    two, a name and a version, the name returned as it is; with no token
    (the empty spec), one token, or three and more, [ParsePackage] returns
    the error of an unexpected number of fields. *)
Theorem spec_of_tokens (ts : list string) :
  Forall (fun t => isToken t = true) ts ->
  Contains (String.concat " " ts) replaceOp = false ->
  ParsePackage (String.concat " " ts) =
  match ts with
  | [name; version] =>
      match parseName name with
      | inl err => Some (Err err)
      | inr (account, project) =>
          match parseVersion version with
          | Some tag => Some (Ok (mkPackage name account project tag))
          | None => Some (Err (UnexpectedVersion version))
          end
      end
  | _ => Some (Err (UnexpectedNumberOfFields (String.concat " " ts)))
  end.
Proof.
  intros Hts Hc. apply Fields_join in Hts.
  rewrite <- (ParsePackageAt_regular 0 _ Hc). cbn [ParsePackageAt].
  rewrite Hc, Hts. destruct ts as [|name [|version [|x l]]]; reflexivity.
Qed.

Lemma spec_of_tokens_witness :
  ParsePackage "github.com/foo/bar" =
  Some (Err (UnexpectedNumberOfFields "github.com/foo/bar")) /\
  ParsePackage "github.com/foo/bar v1.0.0 h1:abc" =
  Some (Err (UnexpectedNumberOfFields "github.com/foo/bar v1.0.0 h1:abc")) /\
  ParsePackage "github.com/foo/bar v1.0.0" =
  Some (Ok (mkPackage "github.com/foo/bar" "foo" "bar" "v1.0.0")).
Proof.
  split; [|split].
  - apply (spec_of_tokens ["github.com/foo/bar"]); [|reflexivity].
    repeat constructor.
  - apply (spec_of_tokens ["github.com/foo/bar"; "v1.0.0"; "h1:abc"]); [|reflexivity].
    repeat constructor.
  - apply (spec_of_tokens ["github.com/foo/bar"; "v1.0.0"]); [|reflexivity].
    repeat constructor.
Defined.

(** X7: the recursion of [ParsePackage] is one level deep: the two sides of
    a replace spec are regular specs, so that a bound of 1 on the depth
    gives the result of any larger bound, and [ParsePackage] returns on
    every spec. *)
Theorem recursion_depth_one (spec : string) (fuel : nat) :
  1 <= fuel ->
  ParsePackageAt fuel spec = ParsePackage spec /\
  exists o, ParsePackage spec = Some o.
Proof.
  intros Hfuel. split; [|apply ParsePackage_total].
  destruct (Contains spec replaceOp) eqn:Hc; [|now apply ParsePackageAt_regular].
  rewrite (ParsePackage_replace _ Hc).
  destruct fuel as [|fuel]; [lia|]. cbn [ParsePackageAt]. rewrite Hc.
  destruct (Split spec replaceOp) as [|old [|new [|x l]]] eqn:E; try reflexivity.
  apply (splitFrom_two _ replaceOp_nonempty) in E as [Hold Hnew].
  now rewrite !ParsePackageAt_regular.
Qed.

Lemma recursion_depth_one_witness :
  ParsePackageAt 1 "a v1.0.0 => github.com/x/y v1.2.0" =
  ParsePackage "a v1.0.0 => github.com/x/y v1.2.0" /\
  exists o, ParsePackage "a v1.0.0 => github.com/x/y v1.2.0" = Some o.
Proof. apply (recursion_depth_one "a v1.0.0 => github.com/x/y v1.2.0" 1). lia. Defined.

Lemma parseName_fails_iff_witness :
  parseName "github.com/foo" = inl (UnexpectedGithubName "github.com/foo").
Proof.
  apply (parseName_fails_iff "github.com/foo"). repeat split. simpl. lia.
Defined.

End TokenSpecs.

(** ** The interface [sort.Sort] works with *)

Section SortInterface.

Variable packagePrefix : string.

Lemma string_compare_refl (s : string) : String.compare s s = Eq.
Proof.
  induction s as [|a s IH]; [reflexivity|]. simpl.
  replace (Ascii.compare a a) with Eq
    by (symmetry; unfold Ascii.compare; apply N.compare_refl).
  exact IH.
Qed.

Lemma string_compare_trans (s t u : string) :
  String.compare s t = Lt -> String.compare t u = Lt -> String.compare s u = Lt.
Proof.
  revert t u. induction s as [|a s IH]; intros [|b t] [|c u]; simpl; try congruence.
  destruct (Ascii.compare a b) eqn:Hab; try congruence;
    destruct (Ascii.compare b c) eqn:Hbc; try congruence.
  - apply Ascii.compare_eq_iff in Hab, Hbc. subst.
    replace (Ascii.compare c c) with Eq
      by (symmetry; unfold Ascii.compare; apply N.compare_refl).
    apply IH.
  - apply Ascii.compare_eq_iff in Hab. subst. now rewrite Hbc.
  - apply Ascii.compare_eq_iff in Hbc. subst. now rewrite Hab.
  - now rewrite (ascii_compare_trans _ _ _ Hab Hbc).
Qed.

(** X8: [Less] is a strict order on the rendered strings, which is what
    [sort.Sort] asks of it: no package is less than itself, [Less] is
    transitive and asymmetric, and two packages neither of which is less
    than the other render as the same string. *)
Theorem Less_strict_order :
  (forall p, Less packagePrefix p p = false) /\
  (forall p q r, Less packagePrefix p q = true -> Less packagePrefix q r = true ->
                 Less packagePrefix p r = true) /\
  (forall p q, Less packagePrefix p q = true -> Less packagePrefix q p = false) /\
  (forall p q, Less packagePrefix p q = false -> Less packagePrefix q p = false ->
               PackageString packagePrefix p = PackageString packagePrefix q).
Proof.
  unfold Less, String.ltb. repeat split.
  - intros p. now rewrite string_compare_refl.
  - intros p q r Hpq Hqr.
    destruct (String.compare (PackageString packagePrefix p) (PackageString packagePrefix q))
      eqn:E1; try discriminate.
    destruct (String.compare (PackageString packagePrefix q) (PackageString packagePrefix r))
      eqn:E2; try discriminate.
    now rewrite (string_compare_trans _ _ _ E1 E2).
  - intros p q. rewrite (String.compare_antisym (PackageString packagePrefix q)).
    destruct (String.compare (PackageString packagePrefix p) (PackageString packagePrefix q));
      simpl; congruence.
  - intros p q. rewrite (String.compare_antisym (PackageString packagePrefix q)).
    destruct (String.compare (PackageString packagePrefix p) (PackageString packagePrefix q))
      eqn:E; simpl; try congruence.
    intros _ _. now apply String.compare_eq_iff.
Qed.

Lemma length_setAt (pp : list Package) (i : nat) (x : Package) :
  List.length (setAt pp i x) = List.length pp.
Proof.
  revert i. induction pp as [|p pp IH]; intros [|i]; simpl; auto.
Qed.

Lemma nth_error_setAt_same (pp : list Package) (i : nat) (x : Package) :
  i < List.length pp -> nth_error (setAt pp i x) i = Some x.
Proof.
  revert i. induction pp as [|p pp IH]; intros [|i] H; simpl in *; try lia; auto.
  apply IH. lia.
Qed.

Lemma nth_error_setAt_other (pp : list Package) (i k : nat) (x : Package) :
  k <> i -> nth_error (setAt pp i x) k = nth_error pp k.
Proof.
  revert i k. induction pp as [|p pp IH]; intros [|i] [|k] H; simpl; auto; try lia.
Qed.

Lemma Swap_nth (pp pp' : list Package) (i j : nat) :
  Swap pp i j = Some pp' ->
  forall k, nth_error pp' k =
            nth_error pp (if k =? i then j else if k =? j then i else k).
Proof.
  unfold Swap.
  destruct (nth_error pp i) as [pi|] eqn:Hi; [|discriminate].
  destruct (nth_error pp j) as [pj|] eqn:Hj; [|discriminate].
  intros [= <-] k.
  assert (Hil : i < List.length pp) by (apply nth_error_Some; congruence).
  assert (Hjl : j < List.length pp) by (apply nth_error_Some; congruence).
  destruct (Nat.eqb_spec k j) as [->|Hkj].
  - rewrite nth_error_setAt_same by (now rewrite length_setAt).
    destruct (Nat.eqb_spec j i) as [->|_]; congruence.
  - rewrite nth_error_setAt_other by assumption.
    destruct (Nat.eqb_spec k i) as [->|Hki].
    + rewrite nth_error_setAt_same by assumption. congruence.
    + now rewrite nth_error_setAt_other.
Qed.

(** X9: [Swap] panics exactly when one of its indices is out of range;
    otherwise it exchanges the two elements and leaves the others where they
    are, so that the slice keeps its length and its elements: whatever the
    swaps [sort.Sort] makes, the result is a permutation. *)
Theorem Swap_exchanges (pp : list Package) (i j : nat) :
  (Swap pp i j = None <-> Len pp <= i \/ Len pp <= j) /\
  (forall pp', Swap pp i j = Some pp' ->
     nth_error pp' i = nth_error pp j /\
     nth_error pp' j = nth_error pp i /\
     (forall k, k <> i -> k <> j -> nth_error pp' k = nth_error pp k) /\
     Len pp' = Len pp /\
     Permutation pp pp').
Proof.
  split.
  - unfold Swap, Len. rewrite <- !nth_error_None.
    destruct (nth_error pp i), (nth_error pp j); split; intros H;
      try discriminate; try reflexivity; try tauto; destruct H; discriminate.
  - intros pp' H. pose proof (Swap_nth _ _ _ _ H) as Hn.
    assert (Hlen : List.length pp' = List.length pp).
    { unfold Swap in H. destruct (nth_error pp i), (nth_error pp j); try discriminate.
      injection H as <-. now rewrite !length_setAt. }
    split; [|split; [|split; [|split]]].
    + rewrite Hn, Nat.eqb_refl. reflexivity.
    + rewrite Hn, Nat.eqb_refl. destruct (Nat.eqb_spec j i); congruence.
    + intros k Hi Hj. rewrite Hn.
      destruct (Nat.eqb_spec k i); [congruence|].
      destruct (Nat.eqb_spec k j); [congruence|reflexivity].
    + exact Hlen.
    + apply Permutation_nth_error. split; [now symmetry|].
      exists (fun k => if k =? i then j else if k =? j then i else k).
      split; [|exact Hn].
      intros a b.
      destruct (Nat.eqb_spec a i), (Nat.eqb_spec a j),
               (Nat.eqb_spec b i), (Nat.eqb_spec b j); congruence.
Qed.

(** X10: swapping the same two elements twice gives the slice back. *)
Theorem Swap_twice (pp pp' : list Package) (i j : nat) :
  Swap pp i j = Some pp' -> Swap pp' i j = Some pp.
Proof.
  intros H. pose proof (Swap_nth _ _ _ _ H) as Hn.
  destruct (Swap pp' i j) as [pp''|] eqn:H'.
  - f_equal. pose proof (Swap_nth _ _ _ _ H') as Hn'.
    apply nth_error_ext. intros k. rewrite Hn', Hn.
    destruct (Nat.eqb_spec k i) as [->|Hki].
    + rewrite Nat.eqb_refl. destruct (Nat.eqb_spec j i); congruence.
    + destruct (Nat.eqb_spec k j) as [->|Hkj].
      * now rewrite Nat.eqb_refl.
      * destruct (Nat.eqb_spec k i); [congruence|].
        destruct (Nat.eqb_spec k j); [congruence|reflexivity].
  - exfalso. unfold Swap in H, H'. rewrite (Hn i), (Hn j), !Nat.eqb_refl in H'.
    destruct (nth_error pp i) eqn:E1; [|discriminate].
    destruct (nth_error pp j) eqn:E2; [|discriminate].
    destruct (Nat.eqb_spec j i) as [->|_]; rewrite ?E1, ?E2 in H'; discriminate.
Qed.

End SortInterface.

Lemma Swap_twice_witness :
  Swap [mkPackage "b" "" "" "v1.0.0"; mkPackage "a" "" "" "v1.0.0"] 0 1 =
  Some [mkPackage "a" "" "" "v1.0.0"; mkPackage "b" "" "" "v1.0.0"].
Proof.
  apply (Swap_twice [mkPackage "a" "" "" "v1.0.0"; mkPackage "b" "" "" "v1.0.0"]).
  reflexivity.
Defined.

(** ** More on [main] *)

Section MainFacts.

Variable packagePrefix : string.

Lemma scanLines_scanSpecs (lines : list string) :
  forall parsedPackages unparsedPackages,
    scanLines lines parsedPackages unparsedPackages =
    scanSpecs (specsOf lines) parsedPackages unparsedPackages.
Proof.
  unfold specsOf. induction lines as [|line lines IH]; intros ps us; [reflexivity|].
  cbn [scanLines filter]. destruct (HasPrefix line specPrefix); [|apply IH].
  cbn [map scanSpecs]. destruct (ParsePackage _) as [[pkg|err]|]; try reflexivity.
  destruct (Parsed pkg); apply IH.
Qed.

(** X11: [main] looks at the lines that start with the marker only: two
    manifests with the same spec lines have the same outcome. *)
Theorem main_spec_lines_only (sortSort : list Package -> list Package)
  (lines1 lines2 : list string) :
  specsOf lines1 = specsOf lines2 ->
  main sortSort packagePrefix lines1 = main sortSort packagePrefix lines2.
Proof. intros H. unfold main. now rewrite !scanLines_scanSpecs, H. Qed.

Lemma scanSpecs_error (good : list string) (bad : string) (rest : list string)
  (pkgs : list Package) (err : error) :
  map ParsePackage good = map (fun p => Some (Ok p)) pkgs ->
  ParsePackage bad = Some (Err err) ->
  forall parsedPackages unparsedPackages,
    scanSpecs (good ++ bad :: rest) parsedPackages unparsedPackages = Some (inl err).
Proof.
  intros Hgood Hbad. revert pkgs Hgood.
  induction good as [|spec good IH]; intros pkgs Hgood ps us.
  - cbn [app scanSpecs]. now rewrite Hbad.
  - destruct pkgs as [|pkg pkgs]; [discriminate|]. cbn [map] in Hgood.
    injection Hgood as Hspec Hgood. cbn [app scanSpecs]. rewrite Hspec.
    destruct (Parsed pkg); now apply (IH pkgs).
Qed.

(** X12: [main] stops at the first spec that does not parse: the run ends
    with the error of that spec, whatever the lines after it, and nothing is
    written to standard output. *)
Theorem main_first_error (sortSort : list Package -> list Package)
  (lines good : list string) (bad : string) (rest : list string)
  (pkgs : list Package) (err : error) :
  specsOf lines = (good ++ bad :: rest)%list ->
  map ParsePackage good = map (fun p => Some (Ok p)) pkgs ->
  ParsePackage bad = Some (Err err) ->
  main sortSort packagePrefix lines = Some (inl err).
Proof.
  intros Hlines Hgood Hbad. unfold main.
  now rewrite scanLines_scanSpecs, Hlines, (scanSpecs_error _ _ _ _ _ Hgood Hbad).
Qed.

(** *** The sorted order is unique up to the rendered strings *)

Lemma string_leb_refl (s : string) : (s <=? s)%string = true.
Proof. unfold String.leb. now rewrite string_compare_refl. Qed.

Lemma sorted_strings_unique (l1 l2 : list string) :
  Permutation l1 l2 ->
  StronglySorted (fun s t => (s <=? t)%string = true) l1 ->
  StronglySorted (fun s t => (s <=? t)%string = true) l2 ->
  l1 = l2.
Proof.
  revert l2. induction l1 as [|a l1 IH]; intros l2 Hp H1 H2.
  - apply Permutation_nil in Hp. now subst.
  - destruct l2 as [|b l2]; [now apply Permutation_sym, Permutation_nil in Hp|].
    inversion H1 as [|? ? Hs1 Ha]; subst. inversion H2 as [|? ? Hs2 Hb]; subst.
    assert (Hab : a = b).
    { apply String.leb_antisym.
      - assert (Hin : In b (a :: l1))
          by (apply (Permutation_in _ (Permutation_sym Hp)); now left).
        destruct Hin as [->|Hin]; [apply string_leb_refl|].
        rewrite Forall_forall in Ha. now apply Ha.
      - assert (Hin : In a (b :: l2)) by (apply (Permutation_in _ Hp); now left).
        destruct Hin as [->|Hin]; [apply string_leb_refl|].
        rewrite Forall_forall in Hb. now apply Hb. }
    subst b. f_equal. apply IH; auto. now apply Permutation_cons_inv in Hp.
Qed.

Lemma tupleBlock_rendered (l1 l2 : list Package) :
  map (PackageString packagePrefix) l1 = map (PackageString packagePrefix) l2 ->
  tupleBlock packagePrefix l1 = tupleBlock packagePrefix l2.
Proof.
  revert l2. induction l1 as [|p l1 IH]; intros [|q l2] H; try discriminate;
    [reflexivity|].
  cbn [map] in H. injection H as Hpq H.
  destruct l1 as [|p' l1], l2 as [|q' l2]; try discriminate.
  - cbn [tupleBlock]. unfold tupleLine. now rewrite Hpq.
  - change (tupleBlock packagePrefix (p :: p' :: l1))
      with (tupleLine packagePrefix false p :: tupleBlock packagePrefix (p' :: l1)).
    change (tupleBlock packagePrefix (q :: q' :: l2))
      with (tupleLine packagePrefix false q :: tupleBlock packagePrefix (q' :: l2)).
    rewrite (IH _ H). unfold tupleLine. now rewrite Hpq.
Qed.

(** X13: the output of [main] does not depend on how [sort.Sort], which is
    not stable, orders the packages [Less] does not tell apart: two sorts
    that keep the promise of [sort.Sort] give the same outcome, byte for
    byte. *)
Theorem main_any_sort (sort1 sort2 : list Package -> list Package)
  (lines : list string) :
  sorts packagePrefix sort1 -> sorts packagePrefix sort2 ->
  main sort1 packagePrefix lines = main sort2 packagePrefix lines.
Proof.
  intros H1 H2. unfold main.
  destruct (scanLines lines [] []) as [[err|[parsed unparsed]]|]; try reflexivity.
  rewrite !printTuple_lines. do 5 f_equal.
  apply tupleBlock_rendered.
  destruct (H1 parsed) as [Hp1 Hs1]. destruct (H2 parsed) as [Hp2 Hs2].
  apply sorted_strings_unique.
  - apply Permutation_map.
    now rewrite Hp1, Hp2.
  - now apply IsSorted_rendered.
  - now apply IsSorted_rendered.
Qed.

Lemma length_tupleBlock (pp : list Package) :
  List.length (tupleBlock packagePrefix pp) = List.length pp.
Proof.
  induction pp as [|p pp IH]; [reflexivity|].
  destruct pp as [|q pp]; [reflexivity|].
  change (tupleBlock packagePrefix (p :: q :: pp))
    with (tupleLine packagePrefix false p :: tupleBlock packagePrefix (q :: pp)).
  cbn [List.length] in *. now rewrite IH.
Qed.





End MainFacts.

(** *** A sort that keeps the promise *)

Section InsertionSort.

Variable packagePrefix : string.

Lemma Less_asym (p q : Package) :
  Less packagePrefix p q = true -> Less packagePrefix q p = false.
Proof.
  unfold Less, String.ltb.
  rewrite (String.compare_antisym (PackageString packagePrefix q)).
  destruct (String.compare (PackageString packagePrefix p) (PackageString packagePrefix q));
    simpl; congruence.
Qed.

Lemma insertByLess_perm (p : Package) (pp : list Package) :
  Permutation (insertByLess packagePrefix p pp) (p :: pp).
Proof.
  induction pp as [|q pp IH]; [reflexivity|]. cbn [insertByLess].
  destruct (Less packagePrefix q p); [|reflexivity].
  rewrite IH. apply perm_swap.
Qed.

Lemma insertByLess_HdRel (p q : Package) (pp : list Package) :
  HdRel (fun a b => Less packagePrefix b a = false) q pp ->
  Less packagePrefix p q = false ->
  HdRel (fun a b => Less packagePrefix b a = false) q (insertByLess packagePrefix p pp).
Proof.
  intros Hd Hpq. destruct pp as [|r pp]; cbn [insertByLess]; [now constructor|].
  inversion Hd; subst. destruct (Less packagePrefix r p); now constructor.
Qed.

Lemma insertByLess_sorted (p : Package) (pp : list Package) :
  IsSorted packagePrefix pp -> IsSorted packagePrefix (insertByLess packagePrefix p pp).
Proof.
  unfold IsSorted. induction pp as [|q pp IH]; intros H; cbn [insertByLess].
  - repeat constructor.
  - inversion H as [|? ? Hs Hd]; subst.
    destruct (Less packagePrefix q p) eqn:Hqp.
    + constructor; [now apply IH|].
      apply insertByLess_HdRel; [assumption|now apply Less_asym].
    + constructor; [assumption|now constructor].
Qed.

Lemma insertionSort_sorts : sorts packagePrefix (insertionSort packagePrefix).
Proof.
  intros pp. unfold insertionSort. induction pp as [|p pp [IH1 IH2]]; cbn [fold_right].
  - split; [reflexivity|constructor].
  - split.
    + rewrite insertByLess_perm. now constructor.
    + now apply insertByLess_sorted.
Qed.

Lemma insertionSort_rev_sorts :
  sorts packagePrefix (fun pp => insertionSort packagePrefix (rev pp)).
Proof.
  intros pp. destruct (insertionSort_sorts (rev pp)) as [H1 H2]. split; [|assumption].
  rewrite H1. apply Permutation_sym, Permutation_rev.
Qed.

End InsertionSort.

Lemma main_spec_lines_only_witness :
  main (insertionSort "vendor") "vendor"
       ["# github.com/b/lib v1.0.0"; "## explicit"; "github.com/b/lib"; "# other.org/y v1.1.0"] =
  main (insertionSort "vendor") "vendor"
       ["# github.com/b/lib v1.0.0"; "# other.org/y v1.1.0"; ""; "#no marker"].
Proof. apply main_spec_lines_only. reflexivity. Defined.

Lemma main_first_error_witness :
  main (insertionSort "vendor") "vendor"
       ["# github.com/b/lib v1.0.0"; "# github.com/a v1.0.0"; "# not a spec at all"] =
  Some (inl (UnexpectedGithubName "github.com/a")).
Proof.
  apply (main_first_error "vendor" (insertionSort "vendor") _
           ["github.com/b/lib v1.0.0"] "github.com/a v1.0.0" ["not a spec at all"]
           [mkPackage "github.com/b/lib" "b" "lib" "v1.0.0"]); reflexivity.
Defined.

Lemma main_any_sort_witness :
  main (insertionSort "vendor") "vendor"
       ["# github.com/b/lib v1.0.0"; "# example.com/x v0.3.0"; "# github.com/a/lib v2.1.0"] =
  main (fun pp => insertionSort "vendor" (rev pp)) "vendor"
       ["# github.com/b/lib v1.0.0"; "# example.com/x v0.3.0"; "# github.com/a/lib v2.1.0"].
Proof.
  apply main_any_sort.
  - apply insertionSort_sorts.
  - apply insertionSort_rev_sorts.
Defined.


Lemma Swap_exchanges_witness :
  Swap [mkPackage "b" "" "" "v1.0.0"; mkPackage "a" "" "" "v1.0.0"] 0 2 = None /\
  Permutation [mkPackage "b" "" "" "v1.0.0"; mkPackage "a" "" "" "v1.0.0"]
              [mkPackage "a" "" "" "v1.0.0"; mkPackage "b" "" "" "v1.0.0"].
Proof.
  split.
  - apply (Swap_exchanges [mkPackage "b" "" "" "v1.0.0"; mkPackage "a" "" "" "v1.0.0"] 0 2).
    right. unfold Len. simpl. lia.
  - apply (Swap_exchanges [mkPackage "b" "" "" "v1.0.0"; mkPackage "a" "" "" "v1.0.0"] 0 1).
    reflexivity.
Defined.

(** ** More on the grouping key and on the rendered string *)

Section Rendering.

Lemma code_bounded (a : ascii) : code a < 256.
Proof. apply nat_ascii_bounded. Qed.

Lemma code_ascii_of_nat (n : nat) : n < 256 -> code (ascii_of_nat n) = n.
Proof. apply nat_ascii_embedding. Qed.

Lemma lowerByte_group (a : ascii) : isWord a = true -> isGroupChar (lowerByte a) = true.
Proof.
  unfold isWord, isAlnum, lowerByte, isGroupChar.
  destruct (isUpper a) eqn:Hu.
  - intros _. unfold isUpper, inRange in Hu. apply andb_true_iff in Hu as [H1 H2].
    apply Nat.leb_le in H1, H2.
    assert (Hl : isLower (ascii_of_nat (code a + 32)) = true).
    { unfold isLower, inRange. rewrite code_ascii_of_nat by lia.
      apply andb_true_iff. split; apply Nat.leb_le; lia. }
    rewrite Hl. now rewrite orb_true_r.
  - rewrite orb_false_r. now intros ->.
Qed.

Lemma ToLower_group (s : string) :
  allb isWord s = true -> allb isGroupChar (ToLower s) = true.
Proof.
  induction s as [|a s IH]; [reflexivity|].
  rewrite allb_cons, andb_true_iff. intros [Ha Hs].
  cbn [ToLower]. now rewrite allb_cons, (lowerByte_group _ Ha), IH.
Qed.

Lemma length_ToLower (s : string) : String.length (ToLower s) = String.length s.
Proof. induction s as [|a s IH]; simpl; congruence. Qed.

Lemma length_collapseFrom (inRun : bool) (s : string) :
  String.length (collapseFrom inRun s) <= String.length s.
Proof.
  revert inRun. induction s as [|a s IH]; intros inRun; [reflexivity|].
  cbn [collapseFrom]. destruct (isKept a).
  - simpl. specialize (IH false). lia.
  - destruct inRun; simpl; specialize (IH true); lia.
Qed.

Lemma collapseFrom_underscore (x y : string) (inRun : bool) :
  collapseFrom inRun (x ++ String "_" y) <> "".
Proof.
  revert inRun. induction x as [|a x IH]; intros inRun.
  - discriminate.
  - change (String a x ++ String "_" y) with (String a (x ++ String "_" y)).
    cbn [collapseFrom]. destruct (isKept a); [discriminate|].
    destruct inRun; [apply IH|discriminate].
Qed.

(** X15: the key [Group] gives is made of lowercase letters, digits and
    underscores; it is never empty; and it is no longer than the account,
    an underscore and the project. *)
Theorem Group_is_identifier (p : Package) :
  allb isGroupChar (Group p) = true /\
  Group p <> "" /\
  String.length (Group p) <= String.length (Account p) + 1 + String.length (Project p).
Proof.
  unfold Group. rewrite ReplaceAll_groupRe. unfold collapseRuns. split; [|split].
  - apply ToLower_group, collapseFrom_word_only.
  - intros H. apply (f_equal String.length) in H. rewrite length_ToLower in H.
    pose proof (collapseFrom_underscore (Account p) (Project p) false) as Hne.
    change (Account p ++ "_" ++ Project p) with (Account p ++ String "_" (Project p)) in H.
    destruct (collapseFrom false (Account p ++ String "_" (Project p)));
      [congruence|discriminate].
  - rewrite length_ToLower.
    pose proof (length_collapseFrom false (Account p ++ "_" ++ Project p)) as H.
    rewrite !length_append in H. cbn [String.length] in H. lia.
Qed.

Lemma cut_unique (c : ascii) (x y x' y' : string) :
  hasChar c x = false -> hasChar c x' = false ->
  x ++ String c y = x' ++ String c y' -> x = x' /\ y = y'.
Proof.
  revert x'. induction x as [|a x IH]; intros [|a' x'] Hx Hx' E; simpl in *.
  - injection E as ->. auto.
  - injection E as <- _. now rewrite Ascii.eqb_refl in Hx'.
  - injection E as -> _. now rewrite Ascii.eqb_refl in Hx.
  - injection E as -> E. apply orb_false_iff in Hx as [_ Hx].
    apply orb_false_iff in Hx' as [_ Hx'].
    destruct (IH _ Hx Hx' E) as [-> ->]. auto.
Qed.

Lemma append_inv_head (s t u : string) : s ++ t = s ++ u -> t = u.
Proof. induction s as [|a s IH]; simpl; [trivial|]. intros [= H]. auto. Qed.

(** X16: for a given prefix, two packages whose accounts, projects and
    tags have no colon render as the same string only if they are the same
    package; with a colon in an account or a project they may not, as two
    replace specs that [ParsePackage] accepts show. *)
Theorem PackageString_injective (packagePrefix : string) :
  (forall p q : Package,
     hasChar ":" (Account p) = false -> hasChar ":" (Account q) = false ->
     hasChar ":" (Project p) = false -> hasChar ":" (Project q) = false ->
     hasChar ":" (Tag p) = false -> hasChar ":" (Tag q) = false ->
     PackageString packagePrefix p = PackageString packagePrefix q -> p = q) /\
  (exists p q : Package,
     ParsePackage "n v1.0.0 => github.com/a:b/c v1.0.0" = Some (Ok p) /\
     ParsePackage "n v1.0.0 => github.com/a/b:c v1.0.0" = Some (Ok q) /\
     p <> q /\ PackageString packagePrefix p = PackageString packagePrefix q).
Proof.
  split.
  - intros [n1 a1 p1 t1] [n2 a2 p2 t2]. cbn [Account Project Tag].
    intros Ha1 Ha2 Hp1 Hp2 Ht1 Ht2. unfold PackageString, Group.
    cbn [Account Project Tag Name].
    change (":" ++ ?x) with (String ":" x).
    intros E.
    apply (cut_unique ":" a1 _ a2 _ Ha1 Ha2) in E as [-> E].
    change (":" ++ ?x) with (String ":" x) in E.
    apply (cut_unique ":" p1 _ p2 _ Hp1 Hp2) in E as [-> E].
    change (":" ++ ?x) with (String ":" x) in E.
    apply (cut_unique ":" t1 _ t2 _ Ht1 Ht2) in E as [-> E].
    apply append_inv_head in E.
    change ("/" ++ ?x) with (String "/" x) in E. injection E as E.
    apply append_inv_head in E. injection E as ->. reflexivity.
  - exists (mkPackage "n" "a:b" "c" "v1.0.0"), (mkPackage "n" "a" "b:c" "v1.0.0").
    split; [reflexivity|]. split; [reflexivity|]. split; [discriminate|].
    unfold PackageString. cbn [Account Project Tag Name].
    change (Group (mkPackage "n" "a:b" "c" "v1.0.0")) with "a_b_c".
    change (Group (mkPackage "n" "a" "b:c" "v1.0.0")) with "a_b_c".
    reflexivity.
Qed.

End Rendering.

Lemma PackageString_injective_witness :
  mkPackage "github.com/foo/bar" "foo" "bar" "v1.0.0" =
  mkPackage "github.com/foo/bar" "foo" "bar" "v1.0.0".
Proof.
  apply (proj1 (PackageString_injective "vendor")); reflexivity.
Defined.

(** ** Edges of the replace form and of the sort interface *)

Section Edges.

Lemma Contains_append (x y : string) : Contains (x ++ replaceOp ++ y) replaceOp = true.
Proof.
  induction x as [|a x IH].
  - cbn [append]. destruct (replaceOp ++ y) eqn:E; cbn [Contains]; rewrite <- E;
      now rewrite HasPrefix_prefix.
  - change (String a x ++ replaceOp ++ y) with (String a (x ++ replaceOp ++ y)).
    cbn [Contains]. rewrite IH. apply orb_true_r.
Qed.

(** X17: a replace spec with nothing on one side of its only operator
    fails with the error of an unexpected number of fields, that of the
    empty side: at once when the old side is empty, after the old side has
    parsed when the new side is. *)
Theorem replace_empty_side (side : string) :
  (occurrences (replaceOp ++ side) replaceOp = 1 ->
   ParsePackage (replaceOp ++ side) = Some (Err (UnexpectedNumberOfFields ""))) /\
  (forall pOld,
     occurrences (side ++ replaceOp) replaceOp = 1 ->
     ParsePackage side = Some (Ok pOld) ->
     ParsePackage (side ++ replaceOp) = Some (Err (UnexpectedNumberOfFields ""))).
Proof.
  split.
  - intros H. pose proof (Contains_append "" side) as Hc. cbn [append] in Hc.
    rewrite (ParsePackage_replace _ Hc). unfold Split.
    pose proof (splitFrom_once _ replaceOp_nonempty "" side) as Hs.
    cbn [append] in Hs. rewrite (Hs H). reflexivity.
  - intros pOld H Hold. pose proof (Contains_append side "") as Hc.
    rewrite append_nil_r in Hc.
    rewrite (ParsePackage_replace _ Hc). unfold Split.
    pose proof (splitFrom_once _ replaceOp_nonempty side "") as Hs.
    rewrite append_nil_r in Hs. rewrite (Hs H), Hold. reflexivity.
Qed.

Lemma replace_empty_side_witness :
  ParsePackage " => github.com/x/y v1.2.0" = Some (Err (UnexpectedNumberOfFields "")) /\
  ParsePackage "github.com/x/y v1.2.0 => " = Some (Err (UnexpectedNumberOfFields "")).
Proof.
  split.
  - apply (replace_empty_side "github.com/x/y v1.2.0"). reflexivity.
  - apply (proj2 (replace_empty_side "github.com/x/y v1.2.0")
             (mkPackage "github.com/x/y" "x" "y" "v1.2.0")); reflexivity.
Defined.

(** X18: [Less] by index panics exactly when an index is out of range, and
    after [Swap] it says of the places [i] and [j] what it said of [j] and
    [i] before. *)
Theorem Swap_Less (packagePrefix : string) (pp : list Package) (i j : nat) :
  (LessAt packagePrefix pp i j = None <-> Len pp <= i \/ Len pp <= j) /\
  (forall pp', Swap pp i j = Some pp' ->
     LessAt packagePrefix pp' i j = LessAt packagePrefix pp j i).
Proof.
  split.
  - unfold LessAt, Len. rewrite <- !nth_error_None.
    destruct (nth_error pp i), (nth_error pp j); split; intros H;
      try discriminate; try reflexivity; try tauto; destruct H; discriminate.
  - intros pp' H. pose proof (Swap_nth _ _ _ _ H) as Hn. unfold LessAt.
    rewrite (Hn i), (Hn j), !Nat.eqb_refl.
    destruct (Nat.eqb_spec j i) as [->|_]; reflexivity.
Qed.

Lemma Swap_Less_witness :
  LessAt "vendor" [mkPackage "a" "" "" "v1.0.0"; mkPackage "b" "" "" "v1.0.0"] 0 1 =
  LessAt "vendor" [mkPackage "b" "" "" "v1.0.0"; mkPackage "a" "" "" "v1.0.0"] 1 0.
Proof.
  apply (Swap_Less "vendor" [mkPackage "b" "" "" "v1.0.0"; mkPackage "a" "" "" "v1.0.0"] 0 1).
  reflexivity.
Defined.

End Edges.
